(** * tfmigrate: wildcard state moves and the history-aware runner

    A shallow embedding of [tfmigrate/state_xmv_action.go] (the
    [StateXMvAction] of package [tfmigrate]) and of the [HistoryRunner] of
    package [command], with the properties their specification states.

    Go strings are byte sequences: they are modelled as [list ascii].  The
    functions of Go's [strings] and [regexp] packages that the code calls are
    modelled next to it, [regexp] for the patterns [makeSourceMatchPattern]
    can build (literal characters and the wildcard group) and on single-byte
    characters, which is what Terraform addresses are made of: the
    properties of the patterns are stated for ASCII sources, and those of
    the templates for ASCII destinations. *)

From Stdlib Require Import String Ascii List Bool Arith NArith Lia.
Import ListNotations.

Set Implicit Arguments.

(** ** Go values *)

(** A Go [string]. *)
Definition str := list ascii.

(** String literals. *)
Definition s (x : string) : str := list_ascii_of_string x.

(** A Go slice: [None] is the [nil] slice, [Some l] a slice of elements [l]
    (so [Some []] is the empty, non-nil slice). *)
Definition slice (A : Type) := option (list A).

(** A Go [error] value, kept as its [Error()] text: [None] is [nil]. *)
Definition error := option str.

(** A Go pointer that may be [nil]. *)
Definition ptr (A : Type) := option A.

Definition str_eqb (a b : str) : bool :=
  if list_eq_dec ascii_dec a b then true else false.

(** The elements of a slice, none for [nil]. *)
Definition elems (A : Type) (l : slice A) : list A :=
  match l with
  | Some x => x
  | None => []
  end.

(** ** Effects

    The collaborators (the Terraform command line, the migration files, the
    history storage) act on a world the code does not see.  Code that calls
    them is written in a state monad over an environment that holds this
    world, what the code itself mutates, and the log of the calls made. *)

Definition M (S A : Type) : Type := S -> A * S.

Definition ret (S A : Type) (a : A) : M S A := fun e => (a, e).

Definition bind (S A B : Type) (c : M S A) (k : A -> M S B) : M S B :=
  fun e => let (a, e') := c e in k a e'.

Notation "x <- c ;; k" := (bind c (fun x => k))
  (at level 61, c at next level, right associativity).

(** [t] occurs inside [x]: what "the text contains" means. *)
Definition contains (x t : str) : Prop := exists pre post, x = pre ++ t ++ post.

(** ** Package strings *)
Module strings.

(** [strings.HasPrefix(s, prefix)]. *)
Fixpoint HasPrefix (x prefix : str) {struct prefix} : bool :=
  match prefix, x with
  | [], _ => true
  | p :: prefix', c :: x' => Ascii.eqb p c && HasPrefix x' prefix'
  | _ :: _, [] => false
  end.

(** The scan of [strings.Count] for a non-empty [substr]: occurrences are
    counted left to right and do not overlap; [skip] is the number of
    characters of the last occurrence still to step over. *)
Fixpoint countFrom (substr : str) (skip : nat) (x : str) : nat :=
  match x with
  | [] => 0
  | _ :: x' =>
      match skip with
      | S k => countFrom substr k x'
      | O => if HasPrefix x substr
             then S (countFrom substr (length substr - 1) x')
             else countFrom substr 0 x'
      end
  end.

(** [strings.Count(s, substr)]; for the empty [substr] Go returns the
    number of characters plus one. *)
Definition Count (x substr : str) : nat :=
  match substr with
  | [] => S (length x)
  | _ => countFrom substr 0 x
  end.

(** The scan of [strings.ReplaceAll] for a non-empty [old]. *)
Fixpoint replaceFrom (old new : str) (skip : nat) (x : str) : str :=
  match x with
  | [] => []
  | c :: x' =>
      match skip with
      | S k => replaceFrom old new k x'
      | O => if HasPrefix x old
             then new ++ replaceFrom old new (length old - 1) x'
             else c :: replaceFrom old new 0 x'
      end
  end.

(** [strings.ReplaceAll(s, old, new)], for a non-empty [old] (the only use
    the code makes of it). *)
Definition ReplaceAll (x old new : str) : str := replaceFrom old new 0 x.

(** [strings.Join(elems, sep)]. *)
Fixpoint Join (elems : list str) (sep : str) : str :=
  match elems with
  | [] => []
  | [e] => e
  | e :: rest => e ++ sep ++ Join rest sep
  end.

(** [strings.Cut(s, sep)] for a one-character separator: the text before
    and after the first [sep], or [None] when there is none. *)
Fixpoint Cut (x : str) (sep : ascii) : option (str * str) :=
  match x with
  | [] => None
  | c :: x' =>
      if Ascii.eqb c sep then Some ([], x')
      else match Cut x' sep with
           | Some (before, after) => Some (c :: before, after)
           | None => None
           end
  end.

End strings.

(** ** The constants of state_xmv_action.go *)

Definition TAB : ascii := "009"%char.
Definition LF : ascii := "010"%char.
Definition VT : ascii := "011"%char.
Definition FF : ascii := "012"%char.
Definition CR : ascii := "013"%char.
Definition SP : ascii := " "%char.
Definition BACKSLASH : ascii := "\"%char.

(** The constant [matchWildcardRegex], as the text its Go string literal
    denotes: a capturing group around a starred negated class whose members
    are the closing bracket, the opening bracket (both escaped), tab,
    newline, vertical tab, form feed, carriage return and space.  The dot is
    not a member of the class. *)
Definition matchWildcardRegex : str :=
  ["("; "["; "^"; BACKSLASH; "]"; BACKSLASH; "["; TAB; LF; VT; FF; CR; SP;
   "]"; "*"; ")"]%char.

(** The constant [wildcardChar], an asterisk. *)
Definition wildcardChar : str := ["*"%char].

(** ** Package regexp *)
Module regexp.

(** The [specialBytes] of regexp.QuoteMeta. *)
Definition specialBytes : str :=
  [BACKSLASH; "."; "+"; "*"; "?"; "("; ")"; "|"; "["; "]"; "{"; "}"; "^";
   "$"]%char.

Definition special (c : ascii) : bool :=
  existsb (Ascii.eqb c) specialBytes.

(** [regexp.QuoteMeta(s)]: a backslash before every special byte. *)
Fixpoint QuoteMeta (x : str) : str :=
  match x with
  | [] => []
  | c :: x' =>
      if special c then BACKSLASH :: c :: QuoteMeta x' else c :: QuoteMeta x'
  end.

(** The patterns [makeSourceMatchPattern] builds are sequences of literal
    characters and wildcard groups. *)
Inductive Tok : Type :=
| Lit (c : ascii)
| Wild.

(** A compiled [*regexp.Regexp]. *)
Definition Regexp := list Tok.

(** The characters of the negated class in [matchWildcardRegex]. *)
Definition wildcardExcluded : str := ["]"; "["; TAB; LF; VT; FF; CR; SP]%char.

(** A character the class of the wildcard group accepts. *)
Definition wildcardClass (c : ascii) : bool :=
  negb (existsb (Ascii.eqb c) wildcardExcluded).

(** The byte [c] lies between [a] and [b]. *)
Definition inRange (a b : N) (c : ascii) : bool :=
  (a <=? N_of_ascii c)%N && (N_of_ascii c <=? b)%N.

(** A continuation byte of UTF-8. *)
Definition continuation (c : ascii) : bool := inRange 128 191 c.

(** The second byte that may follow the first byte [c0] of a sequence of
    three or of four bytes: the ranges that leave out the overlong forms,
    the surrogates and the code points above U+10FFFF. *)
Definition second (c0 c1 : ascii) : bool :=
  if (N_of_ascii c0 =? 224)%N then inRange 160 191 c1
  else if (N_of_ascii c0 =? 237)%N then inRange 128 159 c1
  else if (N_of_ascii c0 =? 240)%N then inRange 144 191 c1
  else if (N_of_ascii c0 =? 244)%N then inRange 128 143 c1
  else continuation c1.

(** The decoding of the text into runes, as [utf8.DecodeRuneInString]
    accepts them: [None] when the whole text decodes, otherwise the rest
    of the text from the first byte that is not the start of a rune. *)
Fixpoint checkUTF8 (x : str) : option str :=
  match x with
  | [] => None
  | c0 :: x1 =>
      if (N_of_ascii c0 <? 128)%N then checkUTF8 x1
      else if inRange 194 223 c0 then
        match x1 with
        | c1 :: x2 => if continuation c1 then checkUTF8 x2 else Some x
        | _ => Some x
        end
      else if inRange 224 239 c0 then
        match x1 with
        | c1 :: c2 :: x3 =>
            if second c0 c1 && continuation c2 then checkUTF8 x3 else Some x
        | _ => Some x
        end
      else if inRange 240 244 c0 then
        match x1 with
        | c1 :: c2 :: c3 :: x4 =>
            if second c0 c1 && continuation c2 && continuation c3
            then checkUTF8 x4 else Some x
        | _ => Some x
        end
      else Some x
  end.

(** The parser of [regexp.Compile], for the syntax above and a text that
    is valid UTF-8: the text of the wildcard group, a backslash followed by
    a special byte (that byte, literally) and any byte that is not special
    (itself, the bytes of a rune one after the other).  Every other
    construct of the regexp syntax is outside this model ([None]). *)
Fixpoint parse (fuel : nat) (p : str) : option Regexp :=
  match fuel with
  | O => None
  | S fuel' =>
      match p with
      | [] => Some []
      | c :: p' =>
          if strings.HasPrefix p matchWildcardRegex then
            option_map (cons Wild)
              (parse fuel' (skipn (length matchWildcardRegex) p))
          else if Ascii.eqb c BACKSLASH then
            match p' with
            | d :: p'' =>
                if special d then option_map (cons (Lit d)) (parse fuel' p'')
                else None
            | [] => None
            end
          else if special c then None
          else option_map (cons (Lit c)) (parse fuel' p')
      end
  end.

(** [regexp.Compile(expr)]: the compiled pattern, or the text of the
    error.  Go's parser reports a byte that does not start a rune when it
    reaches it, with the rest of the expression from this byte; the
    patterns of this model have no other error, so the decoding is checked
    first. *)
Definition Compile (expr : str) : Regexp + str :=
  match checkUTF8 expr with
  | Some rest =>
      inr (s "error parsing regexp: invalid UTF-8: `" ++ rest ++ s "`")
  | None =>
      match parse (S (length expr)) expr with
      | Some re => inl re
      | None => inr (s "error parsing regexp")
      end
  end.

(** One submatch-carrying match: the matched text and the text of each
    capturing group, in order. *)
Definition Match : Type := str * list str.

(** The greedy star of a wildcard group followed by the rest of the
    pattern [k]: take one more character of the class if the rest of the
    pattern can then still match, otherwise stop here.  The result is the
    matched text, the text captured by this group and the later captures. *)
Fixpoint star (k : str -> option Match) (x : str)
  : option (str * str * list str) :=
  let stop :=
    match k x with
    | Some (m, caps) => Some (m, [], caps)
    | None => None
    end in
  match x with
  | [] => stop
  | c :: x' =>
      if wildcardClass c then
        match star k x' with
        | Some (m, cap, caps) => Some (c :: m, c :: cap, caps)
        | None => stop
        end
      else stop
  end.

(** The match of the pattern that starts at the head of [x], if any: the
    one a backtracking search finds first (leftmost-first semantics, every
    star greedy). *)
Fixpoint matchHere (re : Regexp) (x : str) : option Match :=
  match re with
  | [] => Some ([], [])
  | Lit c :: re' =>
      match x with
      | d :: x' =>
          if Ascii.eqb c d then
            match matchHere re' x' with
            | Some (m, caps) => Some (d :: m, caps)
            | None => None
            end
          else None
      | [] => None
      end
  | Wild :: re' =>
      match star (matchHere re') x with
      | Some (m, cap, caps) => Some (m, cap :: caps)
      | None => None
      end
  end.

(** A located match: start and end offsets in the searched text and the
    captured groups ([match[0]], [match[1]] and the submatches). *)
Record Loc : Type := mkLoc { lo : nat; hi : nat; groups : list str }.

(** The leftmost match in [x], the text from offset [pos] on. *)
Fixpoint findFrom (re : Regexp) (x : str) (pos : nat) : option Loc :=
  match matchHere re x with
  | Some (m, caps) => Some (mkLoc pos (pos + length m) caps)
  | None =>
      match x with
      | [] => None
      | _ :: x' => findFrom re x' (S pos)
      end
  end.

(** [re.doExecute(..., s, pos, ...)]: the leftmost match at or after
    [pos]. *)
Definition doExecute (re : Regexp) (x : str) (pos : nat) : option Loc :=
  findFrom re (skipn pos x) pos.

(** [s[lo:hi]]. *)
Definition substr (x : str) (a b : nat) : str := firstn (b - a) (skipn a x).

(** The loop of [re.allMatches] with [n < 0]: successive matches, an empty
    match right after the previous match being skipped.  [prevMatchEnd] is
    [None] for Go's initial [-1]. *)
Fixpoint allMatchesLoop (fuel : nat) (re : Regexp) (x : str)
    (pos : nat) (prevMatchEnd : option nat) : list Loc :=
  match fuel with
  | O => []
  | S fuel' =>
      if length x <? pos then []
      else
        match doExecute re x pos with
        | None => []
        | Some m =>
            if hi m =? pos then
              let accept :=
                match prevMatchEnd with
                | Some e => negb (lo m =? e)
                | None => true
                end in
              let rest :=
                allMatchesLoop fuel' re x
                  (if pos <? length x then pos + 1 else length x + 1)
                  (Some (hi m)) in
              if accept then m :: rest else rest
            else
              m :: allMatchesLoop fuel' re x (hi m) (Some (hi m))
        end
  end.

Definition allMatches (re : Regexp) (x : str) : list Loc :=
  allMatchesLoop (length x + 2) re x 0 None.

(** [re.FindAllString(s, -1)]: the text of every match, [nil] when there
    is none.  (With a negative [n] Go allows one match more than the text
    has characters, which is as many as the loop can deliver.) *)
Definition FindAllString (re : Regexp) (x : str) : slice str :=
  match allMatches re x with
  | [] => None
  | ms => Some (map (fun m => substr x (lo m) (hi m)) ms)
  end.

(** *** Replacement templates *)

Definition between (a b c : ascii) : bool :=
  (N_of_ascii a <=? N_of_ascii c)%N && (N_of_ascii c <=? N_of_ascii b)%N.

Definition isDigit (c : ascii) : bool := between "0" "9" c.

(** The characters of a group name in a template: letters, digits and the
    underscore.  These are the ASCII ones: Go also takes the other Unicode
    letters and digits into a name, so this model reads a template as
    Go does when the scan of a name after a dollar sign meets no non-ASCII
    byte, as in every ASCII template. *)
Definition isNameChar (c : ascii) : bool :=
  between "a" "z" c || between "A" "Z" c || isDigit c || Ascii.eqb c "_".

Fixpoint nameLen (x : str) : nat :=
  match x with
  | c :: x' => if isNameChar c then S (nameLen x') else 0
  | [] => 0
  end.

(** The number a name denotes: [None] (Go's [-1]) when a character is not
    a digit or the value passes 10^8. *)
Fixpoint parseNum (num : N) (name : str) : option N :=
  match name with
  | [] => Some num
  | c :: name' =>
      if negb (isDigit c) || (100000000 <=? num)%N then None
      else parseNum (num * 10 + (N_of_ascii c - 48))%N name'
  end.

(** [extract(str)]: the name after a dollar sign, bare or in braces, the
    number it denotes if any, and the rest of the template. *)
Definition extract (x : str) : option (str * option N * str) :=
  match x with
  | [] => None
  | c0 :: x0 =>
      let brace := Ascii.eqb c0 "{" in
      let x1 := if brace then x0 else x in
      let i := nameLen x1 in
      if i =? 0 then None
      else
        let name := firstn i x1 in
        let tail := skipn i x1 in
        let rest :=
          if brace then
            match tail with
            | c :: r => if Ascii.eqb c "}" then Some r else None
            | [] => None
            end
          else Some tail in
        match rest with
        | None => None
        | Some r =>
            let num :=
              match name with
              | c :: _ :: _ =>
                  if Ascii.eqb c "0" then None else parseNum 0 name
              | _ => parseNum 0 name
              end in
            Some (name, num, r)
        end
  end.

(** Submatch number [n] of a match, empty when there is no such group. *)
Fixpoint groupAt (gs : list str) (n : N) : str :=
  match gs with
  | [] => []
  | g :: gs' => if (n =? 0)%N then g else groupAt gs' (N.pred n)
  end.

(** [re.expand(dst, template, ..., match)]: the template with [$n] and
    [${n}] replaced by submatch [n] ([gs] lists the whole match and then
    the groups), [$$] by a dollar sign, a malformed reference left as it
    is and a named reference by nothing, the pattern having no named
    group. *)
Fixpoint expand (fuel : nat) (template : str) (gs : list str) : str :=
  match fuel with
  | O => template
  | S fuel' =>
      match strings.Cut template "$" with
      | None => template
      | Some (before, after) =>
          before ++
          match after with
          | c :: after' =>
              if Ascii.eqb c "$" then "$"%char :: expand fuel' after' gs
              else
                match extract after with
                | None => "$"%char :: expand fuel' after gs
                | Some (_, num, rest) =>
                    match num with
                    | Some n => groupAt gs n
                    | None => []
                    end ++ expand fuel' rest gs
                end
          | [] => ["$"%char]
          end
      end
  end.

(** The loop of [re.replaceAll]: the text between matches is copied, each
    match is replaced by [repl], except an empty match right after the
    previous match, and the text after the last match is copied. *)
Fixpoint replaceAllLoop (fuel : nat) (re : Regexp) (src : str)
    (repl : Loc -> str) (lastMatchEnd searchPos : nat) : str :=
  match fuel with
  | O => skipn lastMatchEnd src
  | S fuel' =>
      if length src <? searchPos then skipn lastMatchEnd src
      else
        match doExecute re src searchPos with
        | None => skipn lastMatchEnd src
        | Some a =>
            let width := if searchPos <? length src then 1 else 0 in
            let searchPos' :=
              if hi a <? searchPos + width then searchPos + width
              else if hi a <? searchPos + 1 then searchPos + 1
              else hi a in
            substr src lastMatchEnd (lo a) ++
            (if (lastMatchEnd <? hi a) || (lo a =? 0) then repl a else []) ++
            replaceAllLoop fuel' re src repl (hi a) searchPos'
        end
  end.

(** [re.ReplaceAllString(src, repl)].  (Go leaves the groups out of the
    match when the template has no dollar sign; the template is then
    copied as it is, with or without them.) *)
Definition ReplaceAllString (re : Regexp) (src repl : str) : str :=
  replaceAllLoop (length src + 2) re src
    (fun a =>
       expand (S (length repl)) repl (substr src (lo a) (hi a) :: groups a))
    0 0.

(** What the code uses of the package: compilation, with the text of the
    syntax error when it fails, the scan for all matches and the
    replacement of all matches. *)
Record Package : Type := mkPackage {
  pkgCompile : str -> Regexp + str;
  pkgFindAllString : Regexp -> str -> slice str;
  pkgReplaceAllString : Regexp -> str -> str -> str
}.

(** The package as modelled above. *)
Definition go : Package :=
  {| pkgCompile := Compile;
     pkgFindAllString := FindAllString;
     pkgReplaceAllString := ReplaceAllString |}.

End regexp.

(** ** StateXMvAction (package tfmigrate) *)

(** [StateMvAction]: one concrete move. *)
Record StateMvAction : Type := mkStateMvAction {
  mvSource : str;
  mvDestination : str
}.

Definition NewStateMvAction (source destination : str) : StateMvAction :=
  mkStateMvAction source destination.

(** [StateXMvAction]: a move whose source can contain wildcards and whose
    destination can contain placeholders. *)
Record StateXMvAction : Type := mkStateXMvAction {
  source : str;
  destination : str
}.

Definition NewStateXMvAction (source destination : str) : StateXMvAction :=
  mkStateXMvAction source destination.

Definition nrOfWildcards (a : StateXMvAction) : nat :=
  strings.Count (source a) wildcardChar.

Definition makeSourceMatchPattern (x : str) : str :=
  let safeString := regexp.QuoteMeta x in
  let quotedWildCardChar := regexp.QuoteMeta wildcardChar in
  strings.ReplaceAll safeString quotedWildCardChar matchWildcardRegex.

Section Expansion.

(** The regexp package the functions below call. *)
Variable re : regexp.Package.

Definition makeSrcRegex (source : str) : ptr regexp.Regexp * error :=
  let regPattern := makeSourceMatchPattern source in
  match regexp.pkgCompile re regPattern with
  | inl r => (Some r, None)
  | inr err =>
      (None,
       Some (s "could not make pattern out of " ++ source ++ s " (" ++
             regPattern ++ s ") due to " ++ err))
  end.

Definition getMatchingSourcesFromState (a : StateXMvAction)
    (stateList : list str) : slice str * error :=
  match makeSrcRegex (source a) with
  | (Some r, None) =>
      match regexp.pkgFindAllString re r (strings.Join stateList [LF]) with
      | None => (Some [], None)
      | Some wildcardMatches => (Some wildcardMatches, None)
      end
  | (_, e) => (None, e)
  end.

Definition getDestinationForStateSrc (a : StateXMvAction)
    (stateSource : str) : str * error :=
  match makeSrcRegex (source a) with
  | (Some r, None) =>
      (regexp.pkgReplaceAllString re r stateSource (destination a), None)
  | (_, e) => ([], e)
  end.

(** The loop of [getStateMvActionsForStateList] over the matching
    sources. *)
Fixpoint mvActionsFor (a : StateXMvAction) (matchingSources : list str)
  : slice StateMvAction * error :=
  match matchingSources with
  | [] => (Some [], None)
  | matchingSource :: rest =>
      match getDestinationForStateSrc a matchingSource with
      | (destination, None) =>
          match mvActionsFor a rest with
          | (Some response, None) =>
              (Some (mkStateMvAction matchingSource destination :: response),
               None)
          | failed => failed
          end
      | (_, e2) => (None, e2)
      end
  end.

Definition getStateMvActionsForStateList (a : StateXMvAction)
    (stateList : list str) : slice StateMvAction * error :=
  if nrOfWildcards a =? 0 then
    (Some [NewStateMvAction (source a) (destination a)], None)
  else
    match getMatchingSourcesFromState a stateList with
    | (Some matchingSources, None) => mvActionsFor a matchingSources
    | (_, e) => (None, e)
    end.

End Expansion.

(** *** StateUpdate

    The context argument of the methods is left out. *)

Section StateUpdate.

(** [tfexec.State] and the world the Terraform command line acts on. *)
Variables State World : Type.

(** The two methods of [tfexec.TerraformCLI] the action calls: the
    listing of the addresses of a state and the move of one address. *)
Record TerraformCLI : Type := mkTerraformCLI {
  tfStateList : ptr State -> World -> (slice str * error) * World;
  tfStateMv : ptr State -> str -> str -> World -> (ptr State * error) * World
}.

(** A call of the command line, with what it was given and returned. *)
Inductive Call : Type :=
| CallStateList (state : ptr State) (out : slice str) (err : error)
| CallStateMv (state : ptr State) (src dst : str)
    (out : ptr State) (err : error).

Record Env : Type := mkEnv { world : World; calls : list Call }.

Variable re : regexp.Package.
Variable tf : TerraformCLI.

Definition StateList (state : ptr State) : M Env (slice str * error) :=
  fun e =>
    let '(out, err, w) := tfStateList tf state (world e) in
    ((out, err), mkEnv w (calls e ++ [CallStateList state out err])).

Definition StateMv (state : ptr State) (src dst : str)
  : M Env (ptr State * error) :=
  fun e =>
    let '(out, err, w) := tfStateMv tf state src dst (world e) in
    ((out, err), mkEnv w (calls e ++ [CallStateMv state src dst out err])).

(** Modelled from the spec: [StateMvAction.StateUpdate]
    (state_mv_action.go), the MoveAction whose Apply is delegated to the
    state-store collaborator. *)
Definition StateMvAction_StateUpdate (a : StateMvAction) (state : ptr State)
  : M Env (ptr State * error) :=
  StateMv state (mvSource a) (mvDestination a).

Definition generateMvActions (a : StateXMvAction) (state : ptr State)
  : M Env (slice StateMvAction * error) :=
  r <- StateList state ;;
  match r with
  | (stateList, None) =>
      ret (getStateMvActionsForStateList re a (elems stateList))
  | (_, err) => ret (None, err)
  end.

(** The loop of [StateUpdate] over the generated moves. *)
Fixpoint applyMvActions (stateMvActions : list StateMvAction)
    (state : ptr State) : M Env (ptr State * error) :=
  match stateMvActions with
  | [] => ret (state, None)
  | action :: rest =>
      r <- StateMvAction_StateUpdate action state ;;
      match r with
      | (state', None) => applyMvActions rest state'
      | (_, err) => ret (None, err)
      end
  end.

Definition StateUpdate (a : StateXMvAction) (state : ptr State)
  : M Env (ptr State * error) :=
  r <- generateMvActions a state ;;
  match r with
  | (stateMvActions, None) => applyMvActions (elems stateMvActions) state
  | (_, err) => ret (None, err)
  end.

End StateUpdate.

(** ** HistoryRunner (package command)

    The context argument and the log messages of the methods are left
    out. *)
Module command.
Section HistoryRunner.

(** The world the migrations and the history storage act on, the time
    stamps of the records and [FileRunner]. *)
Variables World Time FileRunner : Type.

(** A record of the history. *)
Record MigrationRecord : Type := mkRecord {
  recFilename : str;
  recType : str;
  recName : str;
  recAppliedAt : Time
}.

(** Modelled from the spec: [history.Controller] (package history), the
    HistoryLog, an ordered collection of records keyed by file name,
    together with the migration files available. *)
Record Controller : Type := mkController {
  migrations : list str;
  records : list MigrationRecord
}.

(** Modelled from the spec: [Controller.AlreadyApplied], the membership
    test of the HistoryLog. *)
Definition AlreadyApplied (c : Controller) (filename : str) : bool :=
  existsb (fun r => str_eqb (recFilename r) filename) (records c).

(** Modelled from the spec: [Controller.UnappliedMigrations], the
    available files minus the recorded ones, in the order of the files. *)
Definition UnappliedMigrations (c : Controller) : list str :=
  filter (fun f => negb (AlreadyApplied c f)) (migrations c).

(** Modelled from the spec: [Controller.HistoryLength]. *)
Definition HistoryLength (c : Controller) : nat := length (records c).

(** Modelled from the spec: [Controller.AddRecord], which appends a
    record. *)
Definition AddRecord (c : Controller) (r : MigrationRecord) : Controller :=
  mkController (migrations c) (records c ++ [r]).

(** What the runner calls outside this package: the clock, path joining,
    the runner of one migration file and the storage of the history. *)
Record Collaborators : Type := mkCollaborators {
  now : World -> Time;
  filepathJoin : str -> str -> str;
  newFileRunner : str -> World -> (FileRunner + str) * World;
  frPlan : FileRunner -> World -> error * World;
  frApply : FileRunner -> World -> error * World;
  frMigrationConfig : FileRunner -> str * str;
  historySave : list MigrationRecord -> World -> error * World
}.

(** A call made to the collaborators. *)
Inductive Call : Type :=
| CallNewFileRunner (path : str)
| CallPlan (path : str)
| CallApply (path : str)
| CallSave (saved : list MigrationRecord).

(** [HistoryRunner]: the file name, empty in directory mode, and of the
    configuration the migration directory. *)
Record HistoryRunner : Type := mkHistoryRunner {
  filename : str;
  migrationDir : str
}.

(** The controller [hc] the runner points to, the world and the calls. *)
Record Env : Type := mkEnv {
  hc : Controller;
  world : World;
  calls : list Call
}.

Variable ext : Collaborators.

Definition getHc : M Env Controller := fun e => (hc e, e).

Definition NewFileRunner (path : str) : M Env (FileRunner + str) :=
  fun e =>
    let (r, w) := newFileRunner ext path (world e) in
    (r, mkEnv (hc e) w (calls e ++ [CallNewFileRunner path])).

Definition FileRunner_Plan (path : str) (fr : FileRunner) : M Env error :=
  fun e =>
    let (r, w) := frPlan ext fr (world e) in
    (r, mkEnv (hc e) w (calls e ++ [CallPlan path])).

Definition FileRunner_Apply (path : str) (fr : FileRunner) : M Env error :=
  fun e =>
    let (r, w) := frApply ext fr (world e) in
    (r, mkEnv (hc e) w (calls e ++ [CallApply path])).

Definition hcAddRecord (filename type name : str) : M Env unit :=
  fun e =>
    (tt, mkEnv (AddRecord (hc e)
                  (mkRecord filename type name (now ext (world e))))
           (world e) (calls e)).

Definition hcSave : M Env error :=
  fun e =>
    let (r, w) := historySave ext (records (hc e)) (world e) in
    (r, mkEnv (hc e) w (calls e ++ [CallSave (records (hc e))])).

Definition alreadyAppliedError (filename : str) : str :=
  s "a migration has already been applied: " ++ filename.

Definition resolvePath (r : HistoryRunner) (filename : str) : str :=
  filepathJoin ext (migrationDir r) filename.

Definition planFile (r : HistoryRunner) (filename : str) : M Env error :=
  c <- getHc ;;
  if AlreadyApplied c filename then ret (Some (alreadyAppliedError filename))
  else
    let path := resolvePath r filename in
    fr <- NewFileRunner path ;;
    match fr with
    | inr err => ret (Some err)
    | inl fr => FileRunner_Plan path fr
    end.

(** The loop of [planDir]. *)
Fixpoint planFiles (r : HistoryRunner) (unapplied : list str) : M Env error :=
  match unapplied with
  | [] => ret None
  | filename :: rest =>
      err <- planFile r filename ;;
      match err with
      | Some _ => ret err
      | None => planFiles r rest
      end
  end.

Definition planDir (r : HistoryRunner) : M Env error :=
  c <- getHc ;;
  let unapplied := UnappliedMigrations c in
  if length unapplied =? 0 then ret None else planFiles r unapplied.

Definition Plan (r : HistoryRunner) : M Env error :=
  if negb (length (filename r) =? 0) then planFile r (filename r)
  else planDir r.

Definition applyFile (r : HistoryRunner) (filename : str) : M Env error :=
  c <- getHc ;;
  if AlreadyApplied c filename then ret (Some (alreadyAppliedError filename))
  else
    let path := resolvePath r filename in
    fr <- NewFileRunner path ;;
    match fr with
    | inr err => ret (Some err)
    | inl fr =>
        err <- FileRunner_Apply path fr ;;
        match err with
        | Some _ => ret err
        | None =>
            let mc := frMigrationConfig ext fr in
            _ <- hcAddRecord filename (fst mc) (snd mc) ;;
            ret None
        end
    end.

(** The loop of [applyDir]. *)
Fixpoint applyFiles (r : HistoryRunner) (unapplied : list str) : M Env error :=
  match unapplied with
  | [] => ret None
  | filename :: rest =>
      err <- applyFile r filename ;;
      match err with
      | Some _ => ret err
      | None => applyFiles r rest
      end
  end.

Definition applyDir (r : HistoryRunner) : M Env error :=
  c <- getHc ;;
  let unapplied := UnappliedMigrations c in
  if length unapplied =? 0 then ret None else applyFiles r unapplied.

(** The deferred function of [Apply], given the error [err] the body
    returned: it saves the history if its length changed and, when that
    fails, replaces the named result. *)
Definition saveOnExit (beforeLen : nat) (err : error) : M Env error :=
  c <- getHc ;;
  let afterLen := HistoryLength c in
  if beforeLen =? afterLen then ret err
  else
    serr <- hcSave ;;
    match serr with
    | None => ret err
    | Some serr =>
        match err with
        | None =>
            ret (Some (s "apply succeed, but failed to save history: " ++
                       serr))
        | Some err =>
            ret (Some (s "failed to save history: " ++ serr ++
                       s ", failed to apply: " ++ err))
        end
    end.

(** The body of [Apply] below the [defer] statement. *)
Definition applyBody (r : HistoryRunner) : M Env error :=
  if negb (length (filename r) =? 0) then applyFile r (filename r)
  else applyDir r.

Definition Apply (r : HistoryRunner) : M Env error :=
  c <- getHc ;;
  let beforeLen := HistoryLength c in
  err <- applyBody r ;;
  saveOnExit beforeLen err.

(** The number of times the history was saved. *)
Definition countSaves (cs : list Call) : nat :=
  length (filter (fun c => match c with CallSave _ => true | _ => false end)
            cs).

(** A call that creates the runner of one of the [files], or makes it
    plan or apply. *)
Definition aboutFiles (r : HistoryRunner) (files : list str) (c : Call)
  : Prop :=
  exists f, In f files /\
    (c = CallNewFileRunner (resolvePath r f) \/
     c = CallPlan (resolvePath r f) \/
     c = CallApply (resolvePath r f)).

End HistoryRunner.
End command.

(** ** Vocabulary of the properties *)

(** The token a character of a source stands for. *)
Definition tokOf (c : ascii) : regexp.Tok :=
  if Ascii.eqb c "*" then regexp.Wild else regexp.Lit c.

(** The pattern of a source: its characters, the asterisks as wildcards. *)
Definition pattern (src : str) : regexp.Regexp := map tokOf src.

(** The text [makeSourceMatchPattern] makes of one character. *)
Definition piece (c : ascii) : str :=
  if Ascii.eqb c "*" then matchWildcardRegex
  else if regexp.special c then [BACKSLASH; c] else [c].

(** The pattern [re] occurs in [x] at [a]: it matches at offset [lo a], the
    match is the text up to offset [hi a], and its groups captured the
    texts [groups a]. *)
Definition OccursAt (re : regexp.Regexp) (x : str) (a : regexp.Loc) : Prop :=
  regexp.lo a <= regexp.hi a /\ regexp.hi a <= length x /\
  regexp.matchHere re (skipn (regexp.lo a) x) =
    Some (regexp.substr x (regexp.lo a) (regexp.hi a), regexp.groups a).

(** The occurrences [ms] lie one after the other, none before [pos]. *)
Fixpoint InOrder (pos : nat) (ms : list regexp.Loc) : Prop :=
  match ms with
  | [] => True
  | a :: rest => pos <= regexp.lo a /\ InOrder (regexp.hi a) rest
  end.

(** The move an occurrence [m] in the text [x] stands for: its source is
    the text of the occurrence, its destination the template with the
    captured groups substituted. *)
Definition moveOf (a : StateXMvAction) (x : str) (m : regexp.Loc)
  : StateMvAction :=
  let text := regexp.substr x (regexp.lo m) (regexp.hi m) in
  mkStateMvAction text
    (regexp.expand (S (length (destination a))) (destination a)
       (text :: regexp.groups m)).

(** The entries of a listing in which the pattern of the source of [a]
    matches ([MatchString] of the compiled pattern on the entry). *)
Definition matchingEntries (a : StateXMvAction) (stateList : list str)
  : list str :=
  filter
    (fun entry =>
       match regexp.doExecute (pattern (source a)) entry 0 with
       | Some _ => true
       | None => false
       end)
    stateList.

(** A regexp package that fails to compile everything and finds nothing. *)
Definition brokenRegexp : regexp.Package :=
  regexp.mkPackage (fun _ => inr (s "broken")) (fun _ _ => None)
    (fun _ _ _ => []).

(** The moves [actions] applied one after the other from the snapshot
    [state] in the world [w]: the calls made, the result and the world
    left.  Each move is given the snapshot the move before returned; the
    first move that fails ends the chain with its error and no snapshot. *)
Inductive MoveChain (State World : Type) (tf : TerraformCLI State World)
  : list StateMvAction -> ptr State -> World ->
    list (Call State) -> ptr State * error -> World -> Prop :=
| chain_done state w :
    MoveChain tf [] state w [] (state, None) w
| chain_step action rest state w out w1 cs r w2 :
    tfStateMv tf state (mvSource action) (mvDestination action) w =
      ((out, None), w1) ->
    MoveChain tf rest out w1 cs r w2 ->
    MoveChain tf (action :: rest) state w
      (CallStateMv state (mvSource action) (mvDestination action) out None
       :: cs) r w2
| chain_fail action rest state w out e w1 :
    tfStateMv tf state (mvSource action) (mvDestination action) w =
      ((out, Some e), w1) ->
    MoveChain tf (action :: rest) state w
      [CallStateMv state (mvSource action) (mvDestination action) out
         (Some e)]
      (None, Some e) w1.

(** A small state store: a snapshot is the list of its addresses, the
    world is the journal of the moves the store has carried out.  A move
    fails when its source is not in the snapshot or its destination is. *)
Definition hasAddress (l : list str) (x : str) : bool := existsb (str_eqb x) l.

Definition storeCLI : TerraformCLI (list str) (list (str * str)) :=
  {| tfStateList := fun state w =>
       match state with
       | Some l => ((Some l, None), w)
       | None => ((None, Some (s "no state")), w)
       end;
     tfStateMv := fun state src dst w =>
       match state with
       | Some l =>
           if hasAddress l src && negb (hasAddress l dst) then
             ((Some (map (fun x => if str_eqb x src then dst else x) l), None),
              w ++ [(src, dst)])
           else ((None, Some (s "cannot move " ++ src)), w)
       | None => ((None, Some (s "no state")), w)
       end |}.

(** Migration files for the examples: the world is the journal of the
    migrations applied, a file runner is the path of its file; the files
    whose paths are in [failing] fail to plan and to apply, and the history
    cannot be saved when [saveFails]. *)
Definition demoFiles (failing : list str) (saveFails : bool)
  : command.Collaborators (list str) unit str :=
  {| command.now := fun _ => tt;
     command.filepathJoin := fun dir f => dir ++ s "/" ++ f;
     command.newFileRunner := fun path w => (inl path, w);
     command.frPlan := fun fr w =>
       (if hasAddress failing fr then Some (s "cannot plan " ++ fr) else None,
        w);
     command.frApply := fun fr w =>
       if hasAddress failing fr then (Some (s "cannot apply " ++ fr), w)
       else (None, w ++ [fr]);
     command.frMigrationConfig := fun fr => (s "state", fr);
     command.historySave := fun _ w =>
       (if saveFails then Some (s "storage unavailable") else None, w) |}.

(** A runner on the directory "migrations", for the file [f] or, when [f]
    is empty, in directory mode. *)
Definition demoRunner (f : str) : command.HistoryRunner :=
  command.mkHistoryRunner f (s "migrations").

(** An environment where the migration files are [files] and the history
    records [applied]; no call has been made. *)
Definition demoEnv (files applied : list str)
  : command.Env (list str) unit :=
  command.mkEnv
    (command.mkController files
       (map (fun f => command.mkRecord f (s "state") f tt) applied))
    [] [].

(** A text of 7-bit characters. *)
Definition isASCII (x : str) : bool :=
  forallb (fun c => (N_of_ascii c <? 128)%N) x.

(** The source [src] with its wildcards replaced, from left to right, by
    the texts [caps]. *)
Fixpoint fill (src : str) (caps : list str) : str :=
  match src with
  | [] => []
  | c :: src' =>
      if Ascii.eqb c "*" then hd [] caps ++ fill src' (tl caps)
      else c :: fill src' caps
  end.

(** The source and the destination of a call of the move of the command
    line, nothing for another call. *)
Definition movedBy (State : Type) (c : Call State) : list StateMvAction :=
  match c with
  | CallStateMv _ src dst _ _ => [mkStateMvAction src dst]
  | CallStateList _ _ _ => []
  end.

(** A call that [Plan] may make: the creation of a file runner or its
    plan. *)
Definition planningCall (Time : Type) (c : command.Call Time) : Prop :=
  match c with
  | command.CallNewFileRunner _ _ | command.CallPlan _ _ => True
  | _ => False
  end.

(** A call that [Apply] may make: the creation of a file runner, its apply
    or the save of the history. *)
Definition applyingCall (Time : Type) (c : command.Call Time) : Prop :=
  match c with
  | command.CallPlan _ _ => False
  | _ => True
  end.

(** The file names the history records. *)
Definition recordedNames (Time : Type) (c : command.Controller Time)
  : list str :=
  map (@command.recFilename Time) (command.records c).

(** * Properties *)

Unset Implicit Arguments.

Lemma str_eqb_eq (a b : str) : str_eqb a b = true <-> a = b.
Proof.
  unfold str_eqb. destruct (list_eq_dec ascii_dec a b); split; congruence.
Qed.

Lemma str_eqb_refl (a : str) : str_eqb a a = true.
Proof. now apply str_eqb_eq. Qed.

Lemma contains_app_l (x y t : str) : contains x t -> contains (y ++ x) t.
Proof.
  intros (pre & post & ->). exists (y ++ pre), post. now rewrite app_assoc.
Qed.

Lemma contains_app_r (x y t : str) : contains x t -> contains (x ++ y) t.
Proof.
  intros (pre & post & ->). exists pre, (post ++ y).
  now rewrite <- !app_assoc.
Qed.

Lemma contains_refl (t : str) : contains t t.
Proof. exists [], []. now rewrite app_nil_r. Qed.

(** ** The wildcard count *)

Lemma countFrom_wildcard (x : str) :
  strings.countFrom wildcardChar 0 x = count_occ ascii_dec x "*"%char.
Proof.
  induction x as [|c x IH]; [reflexivity|].
  cbn [strings.countFrom count_occ strings.HasPrefix wildcardChar length Nat.sub].
  rewrite andb_true_r.
  destruct (Ascii.eqb_spec "*"%char c) as [<-|Hne].
  - destruct (ascii_dec "*" "*"); [now rewrite IH | congruence].
  - destruct (ascii_dec c "*"); [congruence | exact IH].
Qed.

Lemma nrOfWildcards_zero (a : StateXMvAction) :
  nrOfWildcards a = 0 <-> ~ In "*"%char (source a).
Proof.
  unfold nrOfWildcards.
  change (strings.Count (source a) wildcardChar)
    with (strings.countFrom wildcardChar 0 (source a)).
  rewrite countFrom_wildcard.
  symmetry. apply count_occ_not_In.
Qed.

(** ** The compiled pattern *)

Ltac eqb_facts H :=
  unfold regexp.special, regexp.specialBytes in H; cbn [existsb] in H;
  repeat (apply orb_false_iff in H; let H' := fresh "Hc" in destruct H as [H' H]).

Lemma special_star : regexp.special "*" = true.
Proof. reflexivity. Qed.

Lemma QuoteMeta_head (x : str) : hd BACKSLASH (regexp.QuoteMeta x) <> "*"%char.
Proof.
  destruct x as [|c x]; [discriminate|].
  cbn [regexp.QuoteMeta].
  destruct (regexp.special c) eqn:Hs; cbn [hd]; [discriminate|].
  intros E. rewrite E in Hs. discriminate Hs.
Qed.

Lemma replaceFrom_cons (old new : str) (c : ascii) (x : str) :
  strings.replaceFrom old new 0 (c :: x) =
  if strings.HasPrefix (c :: x) old
  then new ++ strings.replaceFrom old new (length old - 1) x
  else c :: strings.replaceFrom old new 0 x.
Proof. reflexivity. Qed.

Lemma replace_QuoteMeta (x : str) :
  strings.replaceFrom (regexp.QuoteMeta wildcardChar) matchWildcardRegex 0
    (regexp.QuoteMeta x) = flat_map piece x.
Proof.
  change (regexp.QuoteMeta wildcardChar) with [BACKSLASH; "*"%char].
  induction x as [|c x IH]; [reflexivity|].
  cbn [regexp.QuoteMeta flat_map]. unfold piece at 1.
  destruct (Ascii.eqb_spec c "*") as [->|Hne].
  - rewrite special_star.
    cbn [strings.replaceFrom strings.HasPrefix length Nat.sub].
    change (Ascii.eqb BACKSLASH BACKSLASH) with true.
    change (Ascii.eqb "*" "*") with true. cbn [andb].
    now rewrite IH.
  - destruct (regexp.special c) eqn:Hs.
    + rewrite replaceFrom_cons. cbn [strings.HasPrefix].
      change (Ascii.eqb BACKSLASH BACKSLASH) with true.
      assert (Hf : Ascii.eqb "*" c = false)
        by (apply Ascii.eqb_neq; congruence).
      rewrite Hf. cbn [andb app].
      f_equal.
      assert (Hp : strings.HasPrefix (c :: regexp.QuoteMeta x)
                     [BACKSLASH; "*"%char] = false).
      { cbn [strings.HasPrefix].
        destruct (Ascii.eqb BACKSLASH c); [|reflexivity]. cbn [andb].
        pose proof (QuoteMeta_head x) as Hh.
        destruct (regexp.QuoteMeta x) as [|d q]; [reflexivity|].
        cbn in Hh. rewrite andb_true_r. apply Ascii.eqb_neq. congruence. }
      rewrite replaceFrom_cons, Hp. now rewrite IH.
    + assert (Hb : Ascii.eqb BACKSLASH c = false).
      { eqb_facts Hs. now rewrite Ascii.eqb_sym. }
      cbn [strings.replaceFrom strings.HasPrefix]. rewrite Hb. cbn [andb app].
      now rewrite IH.
Qed.

Lemma makeSourceMatchPattern_pieces (x : str) :
  makeSourceMatchPattern x = flat_map piece x.
Proof. apply replace_QuoteMeta. Qed.

Lemma parse_pieces (x : str) :
  forall fuel, length x < fuel ->
    regexp.parse fuel (flat_map piece x) = Some (pattern x).
Proof.
  induction x as [|c x IH]; intros fuel Hf.
  - destruct fuel; [inversion Hf | reflexivity].
  - destruct fuel as [|fuel]; [inversion Hf|].
    cbn [length] in Hf. apply Nat.succ_lt_mono in Hf.
    cbn [flat_map pattern map]. unfold piece at 1, tokOf at 1.
    destruct (Ascii.eqb_spec c "*") as [->|Hne].
    + cbn. rewrite (IH fuel Hf). reflexivity.
    + destruct (regexp.special c) eqn:Hs.
      * cbn [regexp.parse app strings.HasPrefix matchWildcardRegex].
        change (Ascii.eqb "(" BACKSLASH) with false. cbn [andb].
        change (Ascii.eqb BACKSLASH BACKSLASH) with true. cbv iota.
        rewrite Hs, (IH fuel Hf). reflexivity.
      * pose proof Hs as Hs'. eqb_facts Hs'.
        cbn [regexp.parse app strings.HasPrefix matchWildcardRegex].
        rewrite (Ascii.eqb_sym "(" c), Hc4. cbn [andb]. cbv iota.
        rewrite Hc, Hs, (IH fuel Hf). reflexivity.
Qed.

Lemma length_pieces (x : str) : length x <= length (flat_map piece x).
Proof.
  induction x as [|c x IH]; [reflexivity|].
  cbn [flat_map]. rewrite length_app. cbn [length].
  assert (1 <= length (piece c)); [|lia].
  unfold piece.
  destruct (Ascii.eqb c "*"); [|destruct (regexp.special c)]; cbn; lia.
Qed.

Lemma checkUTF8_ASCII (x : str) :
  isASCII x = true -> regexp.checkUTF8 x = None.
Proof.
  induction x as [|c x IH]; intros H; [reflexivity|].
  cbn [isASCII forallb] in H. apply andb_true_iff in H.
  destruct H as [Hc Hx]. cbn [regexp.checkUTF8]. rewrite Hc. now apply IH.
Qed.

Lemma isASCII_app (x y : str) :
  isASCII (x ++ y) = isASCII x && isASCII y.
Proof. apply forallb_app. Qed.

Lemma isASCII_pieces (x : str) :
  isASCII x = true -> isASCII (flat_map piece x) = true.
Proof.
  induction x as [|c x IH]; intros H; [reflexivity|].
  cbn [isASCII forallb] in H. apply andb_true_iff in H.
  destruct H as [Hc Hx]. cbn [flat_map]. rewrite isASCII_app, (IH Hx).
  rewrite andb_true_r. unfold piece.
  destruct (Ascii.eqb c "*"); [reflexivity|].
  destruct (regexp.special c); cbn [isASCII forallb]; rewrite Hc; reflexivity.
Qed.

(** The pattern text of an ASCII source always compiles, to the pattern of
    that source. *)
Lemma Compile_makeSourceMatchPattern (x : str) :
  isASCII x = true ->
  regexp.Compile (makeSourceMatchPattern x) = inl (pattern x).
Proof.
  intros Ha. unfold regexp.Compile. rewrite makeSourceMatchPattern_pieces.
  rewrite (checkUTF8_ASCII _ (isASCII_pieces _ Ha)).
  rewrite parse_pieces; [reflexivity|]. pose proof (length_pieces x). lia.
Qed.

Lemma makeSrcRegex_go (x : str) :
  isASCII x = true ->
  makeSrcRegex regexp.go x = (Some (pattern x), None).
Proof.
  intros Ha. unfold makeSrcRegex. cbn [regexp.pkgCompile regexp.go].
  now rewrite (Compile_makeSourceMatchPattern _ Ha).
Qed.

(** ** The matcher *)

Section Star.

(** The rest of a pattern, with what is known of it: a match is a prefix
    of the text, a match on a text is a match on every longer text, and a
    match is found again on the matched text alone. *)
Variable k : str -> option regexp.Match.
Hypothesis k_prefix :
  forall x m caps, k x = Some (m, caps) -> exists r, x = m ++ r.
Hypothesis k_longer : forall x r, k x <> None -> k (x ++ r) <> None.
Hypothesis k_alone :
  forall m r caps, k (m ++ r) = Some (m, caps) -> k m = Some (m, caps).

Lemma star_unfold (x : str) :
  regexp.star k x =
  match x with
  | [] =>
      match k [] with
      | Some (m, caps) => Some (m, [], caps)
      | None => None
      end
  | c :: x' =>
      if regexp.wildcardClass c then
        match regexp.star k x' with
        | Some (m, cap, caps) => Some (c :: m, c :: cap, caps)
        | None =>
            match k x with
            | Some (m, caps) => Some (m, [], caps)
            | None => None
            end
        end
      else
        match k x with
        | Some (m, caps) => Some (m, [], caps)
        | None => None
        end
  end.
Proof. destruct x; reflexivity. Qed.

Lemma star_prefix (x : str) :
  forall m cap caps,
    regexp.star k x = Some (m, cap, caps) -> exists r, x = m ++ r.
Proof.
  induction x as [|c x IH]; intros m cap caps H; rewrite star_unfold in H.
  - destruct (k []) as [[m' caps']|] eqn:Hk; [|discriminate].
    inversion H; subst. eapply k_prefix; eauto.
  - destruct (regexp.wildcardClass c).
    + destruct (regexp.star k x) as [[[m' cap'] caps']|] eqn:Hs.
      * inversion H; subst. destruct (IH _ _ _ eq_refl) as [r ->].
        now exists r.
      * destruct (k (c :: x)) as [[m' caps']|] eqn:Hk; [|discriminate].
        inversion H; subst. eapply k_prefix; eauto.
    + destruct (k (c :: x)) as [[m' caps']|] eqn:Hk; [|discriminate].
      inversion H; subst. eapply k_prefix; eauto.
Qed.

Lemma star_from_k (x : str) : k x <> None -> regexp.star k x <> None.
Proof.
  intros Hk. rewrite star_unfold.
  destruct x as [|c x].
  - destruct (k []) as [[m caps]|]; congruence.
  - destruct (regexp.wildcardClass c);
      [destruct (regexp.star k x) as [[[m cap] caps]|]; [discriminate|]|];
      destruct (k (c :: x)) as [[m caps]|]; congruence.
Qed.

Lemma star_nil_longer (r : str) :
  k [] <> None -> regexp.star k r <> None.
Proof.
  intros Hk. apply star_from_k. apply (k_longer [] r Hk).
Qed.

Lemma star_longer (x : str) :
  forall r, regexp.star k x <> None -> regexp.star k (x ++ r) <> None.
Proof.
  induction x as [|c x IH]; intros r H.
  - cbn [app]. apply star_nil_longer.
    rewrite star_unfold in H. destruct (k []); congruence.
  - cbn [app]. rewrite star_unfold in H. rewrite star_unfold.
    destruct (regexp.wildcardClass c).
    + destruct (regexp.star k x) as [[[m cap] caps]|] eqn:Hs.
      * specialize (IH r).
        destruct (regexp.star k (x ++ r)) as [[[m' cap'] caps']|];
          [discriminate | exfalso; apply IH; [discriminate | reflexivity]].
      * destruct (regexp.star k (x ++ r)) as [[[m' cap'] caps']|];
          [discriminate|].
        assert (Hk : k (c :: x) <> None)
          by (destruct (k (c :: x)); congruence).
        apply (k_longer _ r) in Hk. cbn [app] in Hk.
        destruct (k (c :: x ++ r)) as [[m' caps']|]; congruence.
    + assert (Hk : k (c :: x) <> None)
        by (destruct (k (c :: x)) as [[m' caps']|]; congruence).
      apply (k_longer _ r) in Hk. cbn [app] in Hk.
      destruct (k (c :: x ++ r)) as [[m' caps']|]; congruence.
Qed.

Lemma star_alone (x : str) :
  forall m cap caps,
    regexp.star k x = Some (m, cap, caps) ->
    regexp.star k m = Some (m, cap, caps).
Proof.
  induction x as [|c x IH]; intros m cap caps H.
  - destruct (star_prefix _ _ _ _ H) as [r Hr].
    symmetry in Hr. apply app_eq_nil in Hr. destruct Hr as [-> _]. exact H.
  - pose proof H as H0. rewrite star_unfold in H.
    assert (Hstop : forall m' caps',
               regexp.star k x = None \/ regexp.wildcardClass c = false ->
               k (c :: x) = Some (m', caps') ->
               regexp.star k m' = Some (m', [], caps')).
    { intros m' caps' Hno Hk.
      destruct (k_prefix _ _ _ Hk) as [r Hr].
      rewrite Hr in Hk. apply k_alone in Hk.
      rewrite star_unfold.
      destruct m' as [|d m']; [now rewrite Hk|].
      cbn [app] in Hr. inversion Hr; subst d x.
      destruct Hno as [Hno| ->]; [|now rewrite Hk].
      destruct (regexp.wildcardClass c); [|now rewrite Hk].
      destruct (regexp.star k m') as [[[m2 cap2] caps2]|] eqn:Hs;
        [|now rewrite Hk].
      exfalso. apply (star_longer m' r); [congruence | exact Hno]. }
    destruct (regexp.wildcardClass c) eqn:Hc.
    + destruct (regexp.star k x) as [[[m' cap'] caps']|] eqn:Hs.
      * inversion H; subst.
        rewrite star_unfold, Hc, (IH _ _ _ eq_refl). reflexivity.
      * destruct (k (c :: x)) as [[m' caps']|] eqn:Hk; [|discriminate].
        inversion H; subst. apply Hstop; auto.
    + destruct (k (c :: x)) as [[m' caps']|] eqn:Hk; [|discriminate].
      inversion H; subst. apply Hstop; auto.
Qed.

Lemma star_capture (x : str) :
  forall m cap caps,
    regexp.star k x = Some (m, cap, caps) ->
    Forall (fun c => regexp.wildcardClass c = true) cap /\
    exists y m', k y = Some (m', caps).
Proof.
  induction x as [|c x IH]; intros m cap caps H; rewrite star_unfold in H.
  - destruct (k []) as [[m' caps']|] eqn:Hk; [|discriminate].
    inversion H; subst. split; [constructor | eauto].
  - destruct (regexp.wildcardClass c) eqn:Hc.
    + destruct (regexp.star k x) as [[[m' cap'] caps']|] eqn:Hs.
      * inversion H; subst. destruct (IH _ _ _ eq_refl) as [Hf Hk].
        split; [constructor; assumption | exact Hk].
      * destruct (k (c :: x)) as [[m' caps']|] eqn:Hk; [|discriminate].
        inversion H; subst. split; [constructor | eauto].
    + destruct (k (c :: x)) as [[m' caps']|] eqn:Hk; [|discriminate].
      inversion H; subst. split; [constructor | eauto].
Qed.

End Star.

Lemma matchHere_facts (re : regexp.Regexp) :
  (forall x m caps, regexp.matchHere re x = Some (m, caps) ->
                    exists r, x = m ++ r) /\
  (forall x r, regexp.matchHere re x <> None ->
               regexp.matchHere re (x ++ r) <> None) /\
  (forall m r caps, regexp.matchHere re (m ++ r) = Some (m, caps) ->
                    regexp.matchHere re m = Some (m, caps)).
Proof.
  induction re as [|t re (IHp & IHl & IHa)].
  - repeat split.
    + intros x m caps H. inversion H. now exists x.
    + intros; discriminate.
    + intros m r caps H. inversion H. reflexivity.
  - destruct t as [c|].
    + repeat split.
      * intros x m caps H. cbn [regexp.matchHere] in H.
        destruct x as [|d x]; [discriminate|].
        destruct (Ascii.eqb c d); [|discriminate].
        destruct (regexp.matchHere re x) as [[m' caps']|] eqn:Hm;
          [|discriminate].
        inversion H; subst. destruct (IHp _ _ _ Hm) as [r ->]. now exists r.
      * intros x r H. cbn [regexp.matchHere] in *.
        destruct x as [|d x]; [congruence|]. cbn [app].
        destruct (Ascii.eqb c d); [|congruence].
        specialize (IHl x r).
        destruct (regexp.matchHere re x) as [[m' caps']|]; [|congruence].
        destruct (regexp.matchHere re (x ++ r)) as [[m2 caps2]|];
          [discriminate | exfalso; apply IHl; [discriminate | reflexivity]].
      * intros m r caps H. cbn [regexp.matchHere] in *.
        destruct m as [|d m]; cbn [app] in H.
        -- destruct r as [|d r]; [discriminate|].
           destruct (Ascii.eqb c d); [|discriminate].
           destruct (regexp.matchHere re r) as [[m' caps']|]; discriminate.
        -- destruct (Ascii.eqb c d); [|discriminate].
           destruct (regexp.matchHere re (m ++ r)) as [[m' caps']|] eqn:Hm;
             [|discriminate].
           inversion H; subst m' caps'. now rewrite (IHa _ _ _ Hm).
    + repeat split.
      * intros x m caps H. cbn [regexp.matchHere] in H.
        destruct (regexp.star (regexp.matchHere re) x)
          as [[[m' cap'] caps']|] eqn:Hs; [|discriminate].
        inversion H; subst. eapply star_prefix; eauto.
      * intros x r H. cbn [regexp.matchHere] in *.
        pose proof (star_longer _ IHl x r) as Hl.
        destruct (regexp.star (regexp.matchHere re) x)
          as [[[m' cap'] caps']|]; [|congruence].
        destruct (regexp.star (regexp.matchHere re) (x ++ r))
          as [[[m2 cap2] caps2]|];
          [discriminate | exfalso; apply Hl; [discriminate | reflexivity]].
      * intros m r caps H. cbn [regexp.matchHere] in *.
        destruct (regexp.star (regexp.matchHere re) (m ++ r))
          as [[[m' cap'] caps']|] eqn:Hs; [|discriminate].
        inversion H; subst m' caps.
        now rewrite (star_alone _ IHp IHl IHa _ _ _ _ Hs).
Qed.

Lemma matchHere_prefix (re : regexp.Regexp) (x m : str) (caps : list str) :
  regexp.matchHere re x = Some (m, caps) -> exists r, x = m ++ r.
Proof. apply matchHere_facts. Qed.

Lemma matchHere_alone (re : regexp.Regexp) (x m : str) (caps : list str) :
  regexp.matchHere re x = Some (m, caps) ->
  regexp.matchHere re m = Some (m, caps).
Proof.
  intros H. destruct (matchHere_prefix _ _ _ _ H) as [r ->].
  revert H. apply matchHere_facts.
Qed.

(** No group ever captures a character outside the class of the wildcard:
    a bracket or a white space character. *)
Lemma matchHere_captures (re : regexp.Regexp) :
  forall x m caps,
    regexp.matchHere re x = Some (m, caps) ->
    Forall (Forall (fun c => regexp.wildcardClass c = true)) caps.
Proof.
  induction re as [|t re IH]; intros x m caps H; cbn [regexp.matchHere] in H.
  - inversion H. constructor.
  - destruct t as [c|].
    + destruct x as [|d x]; [discriminate|].
      destruct (Ascii.eqb c d); [|discriminate].
      destruct (regexp.matchHere re x) as [[m' caps']|] eqn:Hm; [|discriminate].
      inversion H; subst. eapply IH; eauto.
    + destruct (regexp.star (regexp.matchHere re) x)
        as [[[m' cap'] caps']|] eqn:Hs; [|discriminate].
      inversion H; subst.
      destruct (star_capture _ _ _ _ _ Hs) as [Hf (y & m2 & Hk)].
      constructor; [exact Hf | eapply IH; eauto].
Qed.

(** ** The scan *)

Lemma findFrom_spec (re : regexp.Regexp) (x : str) :
  forall pos a,
    regexp.findFrom re x pos = Some a ->
    exists i m,
      i <= length x /\ regexp.lo a = pos + i /\
      regexp.hi a = pos + i + length m /\
      regexp.matchHere re (skipn i x) = Some (m, regexp.groups a).
Proof.
  induction x as [|c x IH]; intros pos a H; cbn [regexp.findFrom] in H.
  - destruct (regexp.matchHere re []) as [[m caps]|] eqn:Hm; [|discriminate].
    inversion H; subst; cbn. exists 0, m. rewrite Nat.add_0_r. auto.
  - destruct (regexp.matchHere re (c :: x)) as [[m caps]|] eqn:Hm.
    + inversion H; subst; cbn [regexp.lo regexp.hi regexp.groups].
      exists 0, m. rewrite Nat.add_0_r. cbn [skipn]. repeat split; auto; lia.
    + destruct (IH _ _ H) as (i & m & Hi & Hlo & Hhi & Hm').
      exists (S i), m. cbn [skipn length]. repeat split; auto; lia.
Qed.

Lemma doExecute_spec (re : regexp.Regexp) (x : str) (pos : nat)
    (a : regexp.Loc) :
  regexp.doExecute re x pos = Some a ->
  pos <= length x ->
  pos <= regexp.lo a /\ OccursAt re x a.
Proof.
  unfold regexp.doExecute. intros H Hpos.
  destruct (findFrom_spec _ _ _ _ H) as (i & m & Hi & Hlo & Hhi & Hm).
  rewrite length_skipn in Hi. rewrite skipn_skipn in Hm.
  rewrite (Nat.add_comm i pos), <- Hlo in Hm.
  destruct (matchHere_prefix _ _ _ _ Hm) as [r Hr].
  assert (Hlen : length m <= length x - regexp.lo a).
  { rewrite <- (length_skipn (regexp.lo a) x), Hr, length_app. lia. }
  split; [lia|]. unfold OccursAt. repeat split; try lia.
  rewrite Hm. do 2 f_equal. unfold regexp.substr. rewrite Hr.
  replace (regexp.hi a - regexp.lo a) with (length m + 0) by lia.
  rewrite firstn_app_2. cbn. now rewrite app_nil_r.
Qed.

Lemma InOrder_le (ms : list regexp.Loc) (p q : nat) :
  q <= p -> InOrder p ms -> InOrder q ms.
Proof.
  destruct ms as [|a ms]; cbn; [auto|]. intros Hq [Hp Hr]. split; [lia|auto].
Qed.

Lemma allMatchesLoop_spec (re : regexp.Regexp) (x : str) (fuel : nat) :
  forall pos prev,
    Forall (OccursAt re x) (regexp.allMatchesLoop fuel re x pos prev) /\
    InOrder pos (regexp.allMatchesLoop fuel re x pos prev).
Proof.
  induction fuel as [|fuel IH]; intros pos prev; cbn [regexp.allMatchesLoop].
  - split; constructor.
  - destruct (Nat.ltb_spec (length x) pos) as [Hlt|Hle];
      [split; constructor|].
    destruct (regexp.doExecute re x pos) as [a|] eqn:Ha;
      [|split; constructor].
    destruct (doExecute_spec _ _ _ _ Ha Hle) as [Hlo Hocc].
    pose proof Hocc as (Hlh & _ & _).
    destruct (Nat.eqb_spec (regexp.hi a) pos) as [Hhi|Hhi].
    + set (pos' := if pos <? length x then pos + 1 else length x + 1).
      destruct (IH pos' (Some (regexp.hi a))) as [IHf IHo].
      assert (Hpos' : pos <= pos').
      { unfold pos'. destruct (pos <? length x); lia. }
      assert (Hrest : InOrder pos
                (regexp.allMatchesLoop fuel re x pos' (Some (regexp.hi a))))
        by (eapply InOrder_le; eauto).
      destruct (match prev with
                | Some e => negb (regexp.lo a =? e)
                | None => true
                end).
      * split; [constructor; assumption|].
        cbn [InOrder]. split; [exact Hlo|].
        eapply InOrder_le; [|exact IHo]. lia.
      * split; assumption.
    + destruct (IH (regexp.hi a) (Some (regexp.hi a))) as [IHf IHo].
      split; [constructor; assumption|].
      cbn [InOrder]. split; assumption.
Qed.

Lemma allMatches_spec (re : regexp.Regexp) (x : str) :
  Forall (OccursAt re x) (regexp.allMatches re x) /\
  InOrder 0 (regexp.allMatches re x).
Proof. apply allMatchesLoop_spec. Qed.

(** ** The replacement in a matched text *)

Lemma substr_all (m : str) : regexp.substr m 0 (length m) = m.
Proof.
  unfold regexp.substr. cbn [skipn]. rewrite Nat.sub_0_r. apply firstn_all.
Qed.

(** Replacing all matches in a text that is itself one match, with the
    groups [caps], yields the template expanded with these groups. *)
Lemma replaceAllLoop_S (fuel : nat) (re : regexp.Regexp) (src : str)
    (repl : regexp.Loc -> str) (lastMatchEnd searchPos : nat) :
  regexp.replaceAllLoop (S fuel) re src repl lastMatchEnd searchPos =
  if length src <? searchPos then skipn lastMatchEnd src
  else
    match regexp.doExecute re src searchPos with
    | None => skipn lastMatchEnd src
    | Some a =>
        let width := if searchPos <? length src then 1 else 0 in
        let searchPos' :=
          if regexp.hi a <? searchPos + width then searchPos + width
          else if regexp.hi a <? searchPos + 1 then searchPos + 1
          else regexp.hi a in
        regexp.substr src lastMatchEnd (regexp.lo a) ++
        (if (lastMatchEnd <? regexp.hi a) || (regexp.lo a =? 0)
         then repl a else []) ++
        regexp.replaceAllLoop fuel re src repl (regexp.hi a) searchPos'
    end.
Proof. reflexivity. Qed.

Lemma ReplaceAllString_match (re : regexp.Regexp) (m repl : str)
    (caps : list str) :
  regexp.matchHere re m = Some (m, caps) ->
  regexp.ReplaceAllString re m repl =
  regexp.expand (S (length repl)) repl (m :: caps).
Proof.
  intros Hm. unfold regexp.ReplaceAllString.
  set (f := fun a : regexp.Loc => regexp.expand _ _ _).
  replace (length m + 2) with (S (S (length m))) by lia.
  rewrite replaceAllLoop_S.
  destruct (Nat.ltb_spec (length m) 0) as [Hlt|_]; [lia|].
  assert (Hf : regexp.doExecute re m 0 =
               Some (regexp.mkLoc 0 (length m) caps)).
  { unfold regexp.doExecute. cbn [skipn].
    destruct m; cbn [regexp.findFrom]; now rewrite Hm. }
  rewrite Hf. cbn [regexp.lo regexp.hi regexp.groups].
  cbn [Nat.eqb]. rewrite orb_true_r.
  unfold regexp.substr at 1. cbn [Nat.sub firstn app].
  unfold f at 1. cbn [regexp.lo regexp.hi regexp.groups].
  rewrite substr_all.
  rewrite <- (app_nil_r (regexp.expand _ _ _)) at 2. f_equal.
  rewrite replaceAllLoop_S.
  destruct m as [|c m].
  - reflexivity.
  - set (n := length (c :: m)).
    assert (Hn : 1 <= n) by (unfold n; cbn; lia).
    assert (Hskip : skipn n (c :: m) = []) by (apply skipn_all).
    destruct (Nat.ltb_spec 0 n) as [_|Hx]; [|lia].
    destruct (Nat.ltb_spec n (0 + 1)) as [Hx|_]; [lia|].
    destruct (Nat.ltb_spec n n) as [Hx|_]; [lia|].
    unfold regexp.doExecute. rewrite Hskip. cbn [regexp.findFrom].
    destruct (regexp.matchHere re []) as [[m' caps']|] eqn:Hm';
      [|first [exact Hskip | reflexivity]].
    destruct (matchHere_prefix _ _ _ _ Hm') as [r Hr].
    symmetry in Hr. apply app_eq_nil in Hr. destruct Hr as [-> _].
    cbn [regexp.lo regexp.hi length]. rewrite !Nat.add_0_r.
    unfold regexp.substr. rewrite Nat.sub_diag. cbn [firstn app].
    destruct (Nat.ltb_spec n n) as [Hx|_]; [lia|].
    destruct (Nat.eqb_spec n 0) as [Hx|_]; [lia|]. cbn [orb app].
    destruct (Nat.ltb_spec n (n + 1)) as [_|Hx]; [|lia].
    unfold n at 1. cbn [length]. rewrite replaceAllLoop_S. fold n.
    destruct (Nat.ltb_spec n (n + 1)) as [_|Hx]; [|lia].
    first [exact Hskip | reflexivity].
Qed.

(** The scan never runs out of fuel: more fuel finds the same matches. *)
Lemma allMatchesLoop_fuel (re : regexp.Regexp) (x : str) (fuel : nat) :
  forall fuel' pos prev,
    length x + 2 - pos <= fuel -> length x + 2 - pos <= fuel' ->
    regexp.allMatchesLoop fuel re x pos prev =
    regexp.allMatchesLoop fuel' re x pos prev.
Proof.
  induction fuel as [|fuel IH]; intros fuel' pos prev Hf Hf'.
  - destruct fuel' as [|fuel']; [reflexivity|].
    cbn [regexp.allMatchesLoop].
    destruct (Nat.ltb_spec (length x) pos) as [_|Hle]; [reflexivity | lia].
  - destruct fuel' as [|fuel'].
    + cbn [regexp.allMatchesLoop].
      destruct (Nat.ltb_spec (length x) pos) as [_|Hle]; [reflexivity | lia].
    + cbn [regexp.allMatchesLoop].
      destruct (Nat.ltb_spec (length x) pos) as [_|Hle]; [reflexivity|].
      destruct (regexp.doExecute re x pos) as [a|] eqn:Ha; [|reflexivity].
      destruct (doExecute_spec _ _ _ _ Ha Hle) as [Hlo (Hlh & _ & _)].
      destruct (Nat.eqb_spec (regexp.hi a) pos) as [Hhi|Hhi].
      * rewrite (IH fuel'); [reflexivity| |];
          destruct (Nat.ltb_spec pos (length x)); lia.
      * rewrite (IH fuel'); [reflexivity| |]; lia.
Qed.

Lemma allMatches_fuel (re : regexp.Regexp) (x : str) (fuel : nat) :
  length x + 2 <= fuel ->
  regexp.allMatchesLoop fuel re x 0 None = regexp.allMatches re x.
Proof.
  intros Hf. unfold regexp.allMatches. apply allMatchesLoop_fuel; lia.
Qed.

(** ** Templates *)

Lemma Cut_length (x : str) (sep : ascii) :
  forall before after,
    strings.Cut x sep = Some (before, after) ->
    x = before ++ sep :: after.
Proof.
  induction x as [|c x IH]; intros before after H; cbn [strings.Cut] in H.
  - discriminate.
  - destruct (Ascii.eqb_spec c sep) as [->|Hne].
    + inversion H; subst. reflexivity.
    + destruct (strings.Cut x sep) as [[b a]|]; [|discriminate].
      inversion H; subst. cbn [app]. f_equal. now apply IH.
Qed.

Lemma Cut_first (before after : str) (sep : ascii) :
  ~ In sep before ->
  strings.Cut (before ++ sep :: after) sep = Some (before, after).
Proof.
  induction before as [|c before IH]; intros Hn; cbn [app strings.Cut].
  - now rewrite Ascii.eqb_refl.
  - destruct (Ascii.eqb_spec c sep) as [->|Hne].
    + exfalso. apply Hn. now left.
    + rewrite IH; [reflexivity|]. intros Hin. apply Hn. now right.
Qed.

Lemma extract_length (x : str) :
  forall name num rest,
    regexp.extract x = Some (name, num, rest) -> length rest <= length x.
Proof.
  intros name num rest H. unfold regexp.extract in H.
  destruct x as [|c0 x0]; [discriminate|].
  destruct (Ascii.eqb c0 "{").
  - destruct (regexp.nameLen x0 =? 0); [discriminate|].
    pose proof (length_skipn (regexp.nameLen x0) x0) as Hs.
    destruct (skipn (regexp.nameLen x0) x0) as [|c r] eqn:Hsk;
      [discriminate|].
    destruct (Ascii.eqb c "}"); [|discriminate].
    injection H as _ _ Hr. subst rest. cbn [length] in *. lia.
  - set (n := regexp.nameLen (c0 :: x0)) in *.
    destruct (n =? 0); [discriminate|].
    pose proof (length_skipn n (c0 :: x0)) as Hs.
    remember (skipn n (c0 :: x0)) as r eqn:Hr0.
    injection H as _ _ Hr. subst rest. lia.
Qed.

(** The expansion never runs out of fuel. *)
Lemma expand_fuel (gs : list str) (fuel : nat) :
  forall fuel' template,
    length template < fuel -> length template < fuel' ->
    regexp.expand fuel template gs = regexp.expand fuel' template gs.
Proof.
  induction fuel as [|fuel IH]; intros fuel' template Hf Hf'; [lia|].
  destruct fuel' as [|fuel']; [lia|].
  cbn [regexp.expand].
  destruct (strings.Cut template "$") as [[before after]|] eqn:Hc;
    [|reflexivity].
  apply Cut_length in Hc.
  assert (Hl : length after < length template).
  { rewrite Hc, length_app. cbn. lia. }
  f_equal.
  destruct after as [|c after']; [reflexivity|].
  destruct (Ascii.eqb c "$").
  - f_equal. apply IH; cbn [length] in Hl; lia.
  - destruct (regexp.extract (c :: after')) as [[[name num] rest]|] eqn:He.
    + apply extract_length in He. f_equal. apply IH; lia.
    + f_equal. apply IH; lia.
Qed.

(** A template without dollar sign is left as it is. *)
Lemma expand_plain (gs : list str) (fuel : nat) (template : str) :
  ~ In "$"%char template -> regexp.expand fuel template gs = template.
Proof.
  intros Hn. destruct fuel as [|fuel]; [reflexivity|]. cbn [regexp.expand].
  destruct (strings.Cut template "$") as [[before after]|] eqn:Hc;
    [|reflexivity].
  apply Cut_length in Hc. exfalso. apply Hn. rewrite Hc.
  apply in_or_app. right. now left.
Qed.

(** The placeholder of group [d], a digit in braces, stands for the text
    the wildcard number [d] captured: the template up to the placeholder
    is copied, the captured text follows, and the rest of the template is
    expanded in the same way. *)
Lemma expand_placeholder (gs : list str) (before after : str) (d : ascii) :
  ~ In "$"%char before ->
  regexp.isDigit d = true ->
  let template := before ++ s "${" ++ d :: s "}" ++ after in
  regexp.expand (S (length template)) template gs =
  before ++ regexp.groupAt gs (N_of_ascii d - 48) ++
  regexp.expand (S (length after)) after gs.
Proof.
  intros Hn Hd template.
  set (rest := regexp.expand (S (length after)) after gs).
  cbn [regexp.expand].
  unfold template. cbn [s list_ascii_of_string app].
  rewrite (Cut_first _ _ _ Hn). f_equal.
  change (Ascii.eqb "{" "$") with false. cbv iota.
  unfold regexp.extract. change (Ascii.eqb "{" "{") with true. cbv iota zeta.
  assert (Hname : regexp.isNameChar d = true).
  { unfold regexp.isNameChar. rewrite Hd. now rewrite !orb_true_r. }
  cbn [regexp.nameLen]. rewrite Hname.
  change (regexp.isNameChar "}") with false. cbv iota.
  cbn [Nat.eqb firstn skipn]. change (Ascii.eqb "}" "}") with true.
  cbv iota. cbn [regexp.parseNum]. rewrite Hd. cbn [negb orb N.leb N.compare].
  cbv iota. cbn [regexp.parseNum N.mul N.add].
  f_equal. unfold rest. apply expand_fuel; [|lia].
  rewrite length_app. cbn [length]. lia.
Qed.

(** ** Expansion *)

Lemma getDestinationForStateSrc_match (a : StateXMvAction) (x : str)
    (m : regexp.Loc) :
  isASCII (source a) = true ->
  OccursAt (pattern (source a)) x m ->
  getDestinationForStateSrc regexp.go a
    (regexp.substr x (regexp.lo m) (regexp.hi m)) =
  (mvDestination (moveOf a x m), None).
Proof.
  intros Ha (_ & _ & Hm). unfold getDestinationForStateSrc.
  rewrite (makeSrcRegex_go _ Ha).
  cbn [regexp.pkgReplaceAllString regexp.go].
  apply matchHere_alone in Hm.
  now rewrite (ReplaceAllString_match _ _ _ _ Hm).
Qed.

Lemma mvActionsFor_matches (a : StateXMvAction) (x : str)
    (ms : list regexp.Loc) :
  isASCII (source a) = true ->
  Forall (OccursAt (pattern (source a)) x) ms ->
  mvActionsFor regexp.go a
    (map (fun m => regexp.substr x (regexp.lo m) (regexp.hi m)) ms) =
  (Some (map (moveOf a x) ms), None).
Proof.
  intros Ha. induction 1 as [|m ms Hm _ IH]; [reflexivity|].
  cbn [map mvActionsFor].
  rewrite (getDestinationForStateSrc_match _ _ _ Ha Hm), IH. reflexivity.
Qed.

Lemma getMatchingSourcesFromState_go (a : StateXMvAction)
    (stateList : list str) :
  isASCII (source a) = true ->
  getMatchingSourcesFromState regexp.go a stateList =
  (Some (map (fun m => regexp.substr (strings.Join stateList [LF])
                         (regexp.lo m) (regexp.hi m))
           (regexp.allMatches (pattern (source a))
              (strings.Join stateList [LF]))),
   None).
Proof.
  intros Ha. unfold getMatchingSourcesFromState.
  rewrite (makeSrcRegex_go _ Ha).
  cbn [regexp.pkgFindAllString regexp.go]. unfold regexp.FindAllString.
  destruct (regexp.allMatches _ _); reflexivity.
Qed.

Lemma expansion_of_wildcards (a : StateXMvAction) (stateList : list str) :
  isASCII (source a) = true ->
  In "*"%char (source a) ->
  getStateMvActionsForStateList regexp.go a stateList =
  (Some (map (moveOf a (strings.Join stateList [LF]))
           (regexp.allMatches (pattern (source a))
              (strings.Join stateList [LF]))),
   None).
Proof.
  intros Ha Hw. unfold getStateMvActionsForStateList.
  destruct (Nat.eqb_spec (nrOfWildcards a) 0) as [Hz|_].
  - apply nrOfWildcards_zero in Hz. contradiction.
  - rewrite (getMatchingSourcesFromState_go _ _ Ha).
    apply (mvActionsFor_matches _ _ _ Ha), allMatches_spec.
Qed.

(** C2, amended.  For every listing, every ASCII source with at least one
    wildcard and every ASCII destination, the expansion returns one move
    for each occurrence of the pattern that the scan of the listing, joined
    by newlines, finds: the source of the move is the text of the
    occurrence and its destination is the template with the groups
    captured at this occurrence substituted; the occurrences, and so the
    moves, come in the order of their positions in the listing, and without
    occurrence the result is the empty, non-nil slice and no error.  (A
    source that is not valid UTF-8 does not compile, see
    [expansion_of_invalid_source]; the names of a template are read here as
    ASCII names.) *)
Theorem expansion_per_occurrence (a : StateXMvAction) (stateList : list str) :
  isASCII (source a) = true ->
  isASCII (destination a) = true ->
  In "*"%char (source a) ->
  let text := strings.Join stateList [LF] in
  let found := regexp.allMatches (pattern (source a)) text in
  getStateMvActionsForStateList regexp.go a stateList =
    (Some (map (moveOf a text) found), None) /\
  length (map (moveOf a text) found) = length found /\
  Forall (OccursAt (pattern (source a)) text) found /\
  InOrder 0 found /\
  (found = [] ->
   getStateMvActionsForStateList regexp.go a stateList = (Some [], None)).
Proof.
  intros Ha _ Hw text found.
  pose proof (expansion_of_wildcards a stateList Ha Hw) as He.
  fold text in He. fold found in He.
  destruct (allMatches_spec (pattern (source a)) text) as [Hf Ho].
  repeat split; try assumption.
  - apply length_map.
  - intros Hnil. rewrite He, Hnil. reflexivity.
Qed.

(** The scenario of the specification: two of three addresses match, and
    the captured index is carried into the destination. *)
Lemma expansion_per_occurrence_witness :
  isASCII (s "module.a[*].r") = true /\
  isASCII (s "module.new[$1].r") = true /\
  In "*"%char (s "module.a[*].r") /\
  getStateMvActionsForStateList regexp.go
    (NewStateXMvAction (s "module.a[*].r") (s "module.new[$1].r"))
    [s "module.a[0].r"; s "module.a[1].r"; s "module.b.r"] =
  (Some [mkStateMvAction (s "module.a[0].r") (s "module.new[0].r");
         mkStateMvAction (s "module.a[1].r") (s "module.new[1].r")],
   None).
Proof.
  assert (Ha : isASCII (s "module.a[*].r") = true) by reflexivity.
  assert (Hd : isASCII (s "module.new[$1].r") = true) by reflexivity.
  assert (Hw : In "*"%char (s "module.a[*].r")) by (cbn; tauto).
  split; [exact Ha|]. split; [exact Hd|]. split; [exact Hw|].
  destruct (expansion_per_occurrence
              (NewStateXMvAction (s "module.a[*].r") (s "module.new[$1].r"))
              [s "module.a[0].r"; s "module.a[1].r"; s "module.b.r"]
              Ha Hd Hw)
    as [He _].
  rewrite He. vm_compute. reflexivity.
Defined.

(** A source that is not valid UTF-8 does not compile: the expansion of
    the byte 255 followed by a wildcard is nil with the error of
    [makeSrcRegex], which holds the source, the pattern text and the error
    of the parser. *)
Example expansion_of_invalid_source :
  let src := ascii_of_nat 255 :: s "*" in
  let pat := makeSourceMatchPattern src in
  getStateMvActionsForStateList regexp.go (NewStateXMvAction src (s "x"))
    [s "a"] =
  (None,
   Some (s "could not make pattern out of " ++ src ++ s " (" ++ pat ++
         s ") due to error parsing regexp: invalid UTF-8: `" ++ pat ++
         s "`")).
Proof. vm_compute. reflexivity. Qed.

(** C2 as stated fails: the listing below has one entry, in which the
    pattern of "module.*" matches, and the expansion returns two moves, one
    for each occurrence of the pattern inside this entry.  So the number of
    moves is not the number of entries the pattern matches. *)
Lemma expansion_not_per_entry :
  (let a := NewStateXMvAction (s "module.*") (s "module.x$1") in
   let stateList := [s "module.a[0].module.b[0].r"] in
   In "*"%char (source a) /\
   matchingEntries a stateList = stateList /\
   getStateMvActionsForStateList regexp.go a stateList =
     (Some [mkStateMvAction (s "module.a") (s "module.xa");
            mkStateMvAction (s "module.b") (s "module.xb")], None)) /\
  ~ (forall (a : StateXMvAction) (stateList : list str),
        In "*"%char (source a) ->
        exists moves,
          getStateMvActionsForStateList regexp.go a stateList =
            (Some moves, None) /\
          length moves = length (matchingEntries a stateList)).
Proof.
  split.
  - repeat split; try (vm_compute; reflexivity). cbn; tauto.
  - intros H.
    destruct (H (NewStateXMvAction (s "module.*") (s "module.x$1"))
                [s "module.a[0].module.b[0].r"]) as (moves & He & Hl).
    + cbn; tauto.
    + vm_compute in He. inversion He; subst moves.
      vm_compute in Hl. discriminate Hl.
Qed.

(** C3.  A source without wildcard expands to the one move from it to the
    destination, both unchanged, whatever the listing holds and whatever
    the regexp package would do: neither is used. *)
Theorem expansion_without_wildcard (re : regexp.Package)
    (S D : str) (stateList : list str) :
  ~ In "*"%char S ->
  nrOfWildcards (NewStateXMvAction S D) = 0 /\
  getStateMvActionsForStateList re (NewStateXMvAction S D) stateList =
  (Some [mkStateMvAction S D], None).
Proof.
  intros Hw.
  assert (Hz : nrOfWildcards (NewStateXMvAction S D) = 0)
    by (apply nrOfWildcards_zero; exact Hw).
  split; [exact Hz|].
  unfold getStateMvActionsForStateList. rewrite Hz. reflexivity.
Qed.

Lemma expansion_without_wildcard_witness :
  ~ In "*"%char (s "aws_instance.a") /\
  getStateMvActionsForStateList brokenRegexp
    (NewStateXMvAction (s "aws_instance.a") (s "aws_instance.b"))
    [s "aws_instance.a"; s "aws_instance.c"] =
  (Some [mkStateMvAction (s "aws_instance.a") (s "aws_instance.b")], None).
Proof.
  assert (Hw : ~ In "*"%char (s "aws_instance.a")).
  { cbn. intros H.
    repeat (destruct H as [H|H]; [discriminate H|]). exact H. }
  split; [exact Hw|].
  apply (expansion_without_wildcard brokenRegexp _ _ _ Hw).
Defined.

(** C10.  The pattern is not anchored: the pattern of "module.*.r" matches
    inside the entry "xmodule.a.r", and the source of the move generated
    is not an entry of the listing. *)
Theorem match_inside_an_entry :
  let a := NewStateXMvAction (s "module.*.r") (s "module.$1.q") in
  let stateList := [s "xmodule.a.r"] in
  regexp.allMatches (pattern (source a)) (strings.Join stateList [LF]) =
    [regexp.mkLoc 1 11 [s "a"]] /\
  getStateMvActionsForStateList regexp.go a stateList =
    (Some [mkStateMvAction (s "module.a.r") (s "module.a.q")], None) /\
  ~ In (s "module.a.r") stateList.
Proof.
  repeat split; try (vm_compute; reflexivity).
  intros [H|[]]. discriminate H.
Qed.

(** C1, at an input where it fails: in the address of a resource of a
    nested module, the wildcard of "module.*.aws_instance.foo" captures
    "app.module.sub", a text with dots that spans three segments, and the
    move is generated. *)
Theorem wildcard_captures_dot :
  let a := NewStateXMvAction (s "module.*.aws_instance.foo")
             (s "module.$1.aws_instance.bar") in
  let stateList := [s "module.app.module.sub.aws_instance.foo"] in
  regexp.allMatches (pattern (source a)) (strings.Join stateList [LF]) =
    [regexp.mkLoc 0 38 [s "app.module.sub"]] /\
  In "."%char (s "app.module.sub") /\
  getStateMvActionsForStateList regexp.go a stateList =
    (Some [mkStateMvAction (s "module.app.module.sub.aws_instance.foo")
             (s "module.app.module.sub.aws_instance.bar")], None).
Proof.
  repeat split; try (vm_compute; reflexivity).
  cbn. tauto.
Qed.

(** What does hold of C1: no wildcard of an occurrence found in a listing
    captures a bracket or a white space character. *)
Lemma wildcard_captures_no_bracket_no_space (a : StateXMvAction)
    (stateList : list str) (m : regexp.Loc) (cap : str) (c : ascii) :
  In m (regexp.allMatches (pattern (source a))
          (strings.Join stateList [LF])) ->
  In cap (regexp.groups m) -> In c cap ->
  ~ In c regexp.wildcardExcluded.
Proof.
  intros Hm Hcap Hc Hex.
  destruct (allMatches_spec (pattern (source a))
              (strings.Join stateList [LF])) as [Hf _].
  rewrite Forall_forall in Hf. destruct (Hf _ Hm) as (_ & _ & Hmatch).
  apply matchHere_captures in Hmatch.
  rewrite Forall_forall in Hmatch. specialize (Hmatch _ Hcap).
  rewrite Forall_forall in Hmatch. specialize (Hmatch _ Hc).
  unfold regexp.wildcardClass in Hmatch.
  apply negb_true_iff in Hmatch.
  assert (He : existsb (Ascii.eqb c) regexp.wildcardExcluded = true).
  { apply existsb_exists. exists c. split; [exact Hex | apply Ascii.eqb_refl]. }
  congruence.
Qed.

(** And the example of C1: the wildcard between the brackets cannot take
    the segment that follows the index. *)
Lemma wildcard_in_brackets_example :
  getStateMvActionsForStateList regexp.go
    (NewStateXMvAction (s "module.app[*].aws_instance.foo")
       (s "module.app[$1].aws_instance.bar"))
    [s "module.app[0].sub.aws_instance.foo"] = (Some [], None).
Proof. vm_compute. reflexivity. Qed.

(** ** StateUpdate *)

Section StateUpdateProperties.

Variables State World : Type.
Variable re : regexp.Package.
Variable tf : TerraformCLI State World.

Lemma applyMvActions_chain (actions : list StateMvAction) :
  forall (state : ptr State) (e : Env State World),
  exists cs,
    calls (snd (applyMvActions tf actions state e)) = calls e ++ cs /\
    MoveChain tf actions state (world e) cs
      (fst (applyMvActions tf actions state e))
      (world (snd (applyMvActions tf actions state e))).
Proof.
  induction actions as [|action rest IH]; intros state e.
  - exists []. cbn. rewrite app_nil_r. split; [reflexivity | constructor].
  - cbn [applyMvActions]. unfold bind, StateMvAction_StateUpdate, StateMv.
    destruct (tfStateMv tf state (mvSource action) (mvDestination action)
                (world e)) as [[out err] w1] eqn:Hmv.
    destruct err as [err|].
    + eexists. cbn. split; [reflexivity|]. now apply chain_fail.
    + match goal with
      | |- context [applyMvActions tf rest out ?e1] =>
          destruct (IH out e1) as (cs & Hc & Hchain)
      end.
      eexists. split.
      * rewrite Hc. cbn [calls]. rewrite <- app_assoc. reflexivity.
      * cbn [app]. eapply chain_step; [exact Hmv | exact Hchain].
Qed.

Lemma MoveChain_only_moves (actions : list StateMvAction)
    (state : ptr State) (w : World) (cs : list (Call State))
    (r : ptr State * error) (w' : World) :
  MoveChain tf actions state w cs r w' ->
  forall st out err, ~ In (CallStateList st out err) cs.
Proof.
  induction 1; intros st o er Hin; cbn in Hin.
  - exact Hin.
  - destruct Hin as [Hin|Hin]; [discriminate | eapply IHMoveChain; eauto].
  - destruct Hin as [Hin|Hin]; [discriminate | exact Hin].
Qed.

(** What a call of [StateUpdate] does: it lists, and if the listing and
    the expansion succeed it runs the chain of the moves. *)
Lemma StateUpdate_run (a : StateXMvAction) (state : ptr State)
    (e : Env State World) :
  exists out lerr w1 cs,
    tfStateList tf state (world e) = ((out, lerr), w1) /\
    calls (snd (StateUpdate re tf a state e)) =
      calls e ++ CallStateList state out lerr :: cs /\
    match lerr, getStateMvActionsForStateList re a (elems out) with
    | None, (moves, None) =>
        MoveChain tf (elems moves) state w1 cs
          (fst (StateUpdate re tf a state e))
          (world (snd (StateUpdate re tf a state e)))
    | None, (_, err) =>
        cs = [] /\ fst (StateUpdate re tf a state e) = (None, err) /\
        world (snd (StateUpdate re tf a state e)) = w1
    | Some _, _ =>
        cs = [] /\ fst (StateUpdate re tf a state e) = (None, lerr) /\
        world (snd (StateUpdate re tf a state e)) = w1
    end.
Proof.
  unfold StateUpdate, generateMvActions, bind, StateList.
  destruct (tfStateList tf state (world e)) as [[out lerr] w1] eqn:Hl.
  exists out, lerr, w1.
  destruct lerr as [lerr|].
  - exists []. cbn. auto.
  - unfold ret.
    destruct (getStateMvActionsForStateList re a (elems out))
      as [moves [err|]] eqn:Hg.
    + exists []. cbn. auto.
    + match goal with
      | |- context [applyMvActions tf (elems moves) state ?e1] =>
          destruct (applyMvActions_chain (elems moves) state e1)
            as (cs & Hc & Hchain)
      end.
      exists cs. split; [reflexivity|]. split.
      * rewrite Hc. cbn [calls]. rewrite <- app_assoc. reflexivity.
      * exact Hchain.
Qed.

(** C4.  [StateUpdate] calls the listing once, before anything else;
    every later call is a move.  The moves of the expansion are applied
    in order, each on the snapshot the move before returned, up to the
    first that fails, whose error is returned with a nil snapshot; the
    world is left as these calls, and no other, made it. *)
Theorem StateUpdate_lists_once_then_moves (a : StateXMvAction)
    (state : ptr State) (e : Env State World) :
  exists out lerr w1 cs,
    tfStateList tf state (world e) = ((out, lerr), w1) /\
    calls (snd (StateUpdate re tf a state e)) =
      calls e ++ CallStateList state out lerr :: cs /\
    (forall st o er, ~ In (CallStateList st o er) cs) /\
    match lerr, getStateMvActionsForStateList re a (elems out) with
    | None, (moves, None) =>
        MoveChain tf (elems moves) state w1 cs
          (fst (StateUpdate re tf a state e))
          (world (snd (StateUpdate re tf a state e)))
    | None, (_, err) =>
        cs = [] /\ fst (StateUpdate re tf a state e) = (None, err) /\
        world (snd (StateUpdate re tf a state e)) = w1
    | Some _, _ =>
        cs = [] /\ fst (StateUpdate re tf a state e) = (None, lerr) /\
        world (snd (StateUpdate re tf a state e)) = w1
    end.
Proof.
  destruct (StateUpdate_run a state e) as (out & lerr & w1 & cs & Hl & Hc & H).
  exists out, lerr, w1, cs. repeat split; try assumption.
  intros st o er Hin.
  destruct lerr as [lerr|].
  - destruct H as [-> _]. exact Hin.
  - destruct (getStateMvActionsForStateList re a (elems out))
      as [moves [err|]].
    + destruct H as [-> _]. exact Hin.
    + eapply MoveChain_only_moves; eauto.
Qed.

(** C9.  Every call of [StateUpdate] starts with the listing, wildcard or
    not, and when the listing fails its error is returned with a nil
    snapshot and no move is made. *)
Theorem StateUpdate_listing_failure (a : StateXMvAction)
    (state : ptr State) (e : Env State World)
    (out : slice str) (err : str) (w1 : World) :
  tfStateList tf state (world e) = ((out, Some err), w1) ->
  StateUpdate re tf a state e =
    ((None, Some err),
     mkEnv w1 (calls e ++ [CallStateList state out (Some err)])) /\
  (forall (a' : StateXMvAction) (state' : ptr State) (e' : Env State World),
      exists out' lerr' cs,
        calls (snd (StateUpdate re tf a' state' e')) =
        calls e' ++ CallStateList state' out' lerr' :: cs).
Proof.
  intros Hl. split.
  - unfold StateUpdate, generateMvActions, bind, StateList.
    rewrite Hl. reflexivity.
  - intros a' state' e'.
    destruct (StateUpdate_run a' state' e')
      as (out' & lerr' & w' & cs & _ & Hc & _).
    eauto.
Qed.

End StateUpdateProperties.

(** ** HistoryRunner *)

Section HistoryRunnerProperties.

Import command.

Variables World Time FileRunner : Type.
Variable ext : Collaborators World Time FileRunner.

Let Env : Type := command.Env World Time.
Let HistoryRunner : Type := command.HistoryRunner.

Lemma AlreadyApplied_In (c : Controller Time) (f : str) :
  AlreadyApplied c f = true <-> In f (map (@recFilename Time) (records c)).
Proof.
  unfold AlreadyApplied. rewrite existsb_exists, in_map_iff.
  split; intros (x & H1 & H2).
  - exists x. apply str_eqb_eq in H2. auto.
  - exists x. split; [exact H2 | apply str_eqb_eq; exact H1].
Qed.

Lemma countSaves_app (a b : list (Call Time)) :
  countSaves (a ++ b) = countSaves a + countSaves b.
Proof. unfold countSaves. now rewrite filter_app, length_app. Qed.

(** A file already applied is refused, by [applyFile] and by [planFile],
    and nothing happens. *)
Lemma applyFile_refused (r : HistoryRunner) (f : str) (e : Env) :
  AlreadyApplied (hc e) f = true ->
  applyFile ext r f e = (Some (alreadyAppliedError f), e).
Proof. intros H. unfold applyFile, bind, getHc. now rewrite H. Qed.

Lemma planFile_refused (r : HistoryRunner) (f : str) (e : Env) :
  AlreadyApplied (hc e) f = true ->
  planFile ext r f e = (Some (alreadyAppliedError f), e).
Proof. intros H. unfold planFile, bind, getHc. now rewrite H. Qed.

(** What [applyFile] does: it makes calls about this file only, none of
    them a save; when it succeeds it has appended one record, of this
    file, and when it fails it has left the history as it was. *)
Lemma applyFile_spec (r : HistoryRunner) (f : str) (e : Env) :
  exists new,
    calls (snd (applyFile ext r f e)) = calls e ++ new /\
    Forall (aboutFiles ext r [f]) new /\
    countSaves new = 0 /\
    match fst (applyFile ext r f e) with
    | None =>
        exists ty nm t,
          hc (snd (applyFile ext r f e)) =
          AddRecord (hc e) (mkRecord f ty nm t)
    | Some _ => hc (snd (applyFile ext r f e)) = hc e
    end.
Proof.
  assert (Hab : forall c,
             c = CallNewFileRunner Time (resolvePath ext r f) \/
             c = CallPlan Time (resolvePath ext r f) \/
             c = CallApply Time (resolvePath ext r f) ->
             aboutFiles ext r [f] c).
  { intros c Hc. exists f. split; [now left | exact Hc]. }
  unfold applyFile, bind, getHc.
  destruct (AlreadyApplied (hc e) f).
  - exists []. cbn. rewrite app_nil_r. auto.
  - unfold NewFileRunner.
    destruct (newFileRunner ext (resolvePath ext r f) (world e))
      as [[fr|err] w1].
    + unfold FileRunner_Apply. cbn [world hc calls].
      destruct (frApply ext fr w1) as [[err|] w2].
      * eexists. cbn. rewrite <- app_assoc. split; [reflexivity|].
        split; [|auto]. repeat constructor; apply Hab; auto.
      * eexists. cbn. rewrite <- app_assoc. split; [reflexivity|].
        split; [repeat constructor; apply Hab; auto|].
        split; [reflexivity|]. eauto.
    + eexists. cbn. split; [reflexivity|].
      split; [|auto]. repeat constructor; apply Hab; auto.
Qed.

Lemma planFile_spec (r : HistoryRunner) (f : str) (e : Env) :
  hc (snd (planFile ext r f e)) = hc e /\
  countSaves (calls (snd (planFile ext r f e))) = countSaves (calls e).
Proof.
  unfold planFile, bind, getHc.
  destruct (AlreadyApplied (hc e) f); [auto|].
  unfold NewFileRunner.
  destruct (newFileRunner ext (resolvePath ext r f) (world e))
    as [[fr|err] w1].
  - unfold FileRunner_Plan. cbn [world hc calls].
    destruct (frPlan ext fr w1) as [err w2]. cbn -[countSaves].
    rewrite !countSaves_app. cbn. split; [reflexivity | lia].
  - cbn -[countSaves]. rewrite countSaves_app. cbn.
    split; [reflexivity | lia].
Qed.

Lemma planFiles_spec (r : HistoryRunner) (files : list str) :
  forall e : Env,
    hc (snd (planFiles ext r files e)) = hc e /\
    countSaves (calls (snd (planFiles ext r files e))) =
    countSaves (calls e).
Proof.
  induction files as [|f files IH]; intros e; [auto|].
  cbn [planFiles]. unfold bind.
  destruct (planFile_spec r f e) as [Hh Hs].
  destruct (planFile ext r f e) as [[err|] e1]; cbn [fst snd] in *.
  - unfold ret. auto.
  - destruct (IH e1) as [Hh' Hs']. split; congruence.
Qed.

Lemma Plan_spec (r : HistoryRunner) (e : Env) :
  hc (snd (Plan ext r e)) = hc e /\
  countSaves (calls (snd (Plan ext r e))) = countSaves (calls e).
Proof.
  unfold Plan. destruct (negb (length (filename r) =? 0)).
  - apply planFile_spec.
  - unfold planDir, bind, getHc.
    destruct (length (UnappliedMigrations (hc e)) =? 0); [auto|].
    apply planFiles_spec.
Qed.

(** What the loop of [applyDir] does when every file of [files] is
    applied: it has appended their records, in order, and made calls
    about these files only. *)
Lemma applyFiles_spec (r : HistoryRunner) (files : list str) :
  forall e : Env,
  exists new,
    calls (snd (applyFiles ext r files e)) = calls e ++ new /\
    countSaves new = 0 /\
    migrations (hc (snd (applyFiles ext r files e))) = migrations (hc e) /\
    (fst (applyFiles ext r files e) = None ->
     Forall (aboutFiles ext r files) new /\
     map (@recFilename Time) (records (hc (snd (applyFiles ext r files e)))) =
     map (@recFilename Time) (records (hc e)) ++ files).
Proof.
  induction files as [|f files IH]; intros e.
  - exists []. cbn. rewrite !app_nil_r. auto.
  - cbn [applyFiles]. unfold bind.
    destruct (applyFile_spec r f e) as (new1 & Hc1 & Ha1 & Hs1 & Hh1).
    destruct (applyFile ext r f e) as [[err|] e1]; cbn [fst snd] in *.
    + exists new1. unfold ret. cbn [fst snd]. rewrite Hh1.
      repeat split; auto; discriminate.
    + destruct Hh1 as (ty & nm & t & Hh1).
      destruct (IH e1) as (new2 & Hc2 & Hs2 & Hm2 & Hok).
      exists (new1 ++ new2). rewrite Hc2, Hc1, <- app_assoc.
      split; [reflexivity|]. rewrite countSaves_app, Hs1, Hs2.
      split; [reflexivity|]. rewrite Hm2, Hh1.
      split; [reflexivity|]. intros Hnone.
      destruct (Hok Hnone) as [Ha2 Hr2]. split.
      * apply Forall_app. split.
        -- eapply Forall_impl; [|exact Ha1].
           intros c (g & [<-|[]] & Hg). exists f. split; [now left | exact Hg].
        -- eapply Forall_impl; [|exact Ha2].
           intros c (g & Hin & Hg). exists g. split; [now right | exact Hg].
      * rewrite Hr2, Hh1. cbn [AddRecord records].
        rewrite map_app, <- app_assoc. reflexivity.
Qed.

Lemma applyBody_saves (r : HistoryRunner) (e : Env) :
  countSaves (calls (snd (applyBody ext r e))) = countSaves (calls e).
Proof.
  unfold applyBody. destruct (negb (length (filename r) =? 0)).
  - destruct (applyFile_spec r (filename r) e) as (new & Hc & _ & Hs & _).
    rewrite Hc, countSaves_app. lia.
  - unfold applyDir, bind, getHc.
    destruct (length (UnappliedMigrations (hc e)) =? 0); [reflexivity|].
    destruct (applyFiles_spec r (UnappliedMigrations (hc e)) e)
      as (new & Hc & Hs & _).
    rewrite Hc, countSaves_app. lia.
Qed.

Lemma Apply_unfold (r : HistoryRunner) (e : Env) :
  Apply ext r e =
  saveOnExit ext (HistoryLength (hc e)) (fst (applyBody ext r e))
    (snd (applyBody ext r e)).
Proof.
  unfold Apply, bind, getHc. destruct (applyBody ext r e). reflexivity.
Qed.

Lemma saveOnExit_unchanged (n : nat) (err : error) (e : Env) :
  HistoryLength (hc e) = n -> saveOnExit ext n err e = (err, e).
Proof.
  intros <-. unfold saveOnExit, bind, getHc. now rewrite Nat.eqb_refl.
Qed.

Lemma saveOnExit_changed (n : nat) (err : error) (e : Env) :
  HistoryLength (hc e) <> n ->
  saveOnExit ext n err e =
  (match fst (historySave ext (records (hc e)) (world e)), err with
   | None, _ => err
   | Some serr, None =>
       Some (s "apply succeed, but failed to save history: " ++ serr)
   | Some serr, Some aerr =>
       Some (s "failed to save history: " ++ serr ++
             s ", failed to apply: " ++ aerr)
   end,
   mkEnv (hc e) (snd (historySave ext (records (hc e)) (world e)))
     (calls e ++ [CallSave (records (hc e))])).
Proof.
  intros Hn. unfold saveOnExit, bind, getHc, hcSave.
  destruct (Nat.eqb_spec n (HistoryLength (hc e))) as [Heq|_];
    [congruence|].
  destruct (historySave ext (records (hc e)) (world e)) as [[serr|] w].
  - destruct err; reflexivity.
  - reflexivity.
Qed.

Lemma applyFiles_app (r : HistoryRunner) (l1 l2 : list str) :
  forall e : Env,
    applyFiles ext r (l1 ++ l2) e =
    match applyFiles ext r l1 e with
    | (Some err, e') => (Some err, e')
    | (None, e') => applyFiles ext r l2 e'
    end.
Proof.
  induction l1 as [|f l1 IH]; intros e; [reflexivity|].
  cbn [app applyFiles]. unfold bind.
  destruct (applyFile ext r f e) as [[err|] e1]; [reflexivity | apply IH].
Qed.

(** C5.  When the run changed the history and saving it fails, [Apply]
    returns an error whose text holds the failure of the save: after a
    successful run it says that the apply succeeded but the history could
    not be saved, after a failed run it holds the failure of the apply as
    well. *)
Theorem Apply_save_failure (r : HistoryRunner) (e e1 : Env)
    (err : error) (serr : str) (w2 : World) :
  applyBody ext r e = (err, e1) ->
  HistoryLength (hc e1) <> HistoryLength (hc e) ->
  historySave ext (records (hc e1)) (world e1) = (Some serr, w2) ->
  exists text,
    Apply ext r e =
      (Some text,
       mkEnv (hc e1) w2 (calls e1 ++ [CallSave (records (hc e1))])) /\
    contains text serr /\
    match err with
    | None =>
        text = s "apply succeed, but failed to save history: " ++ serr
    | Some aerr =>
        text = s "failed to save history: " ++ serr ++
               s ", failed to apply: " ++ aerr /\
        contains text aerr
    end.
Proof.
  intros Hb Hlen Hsave.
  rewrite Apply_unfold, Hb. cbn [fst snd].
  rewrite (saveOnExit_changed _ _ _ Hlen), Hsave. cbn [fst snd].
  destruct err as [aerr|]; eexists; (split; [reflexivity|]).
  - split; [|split; [reflexivity|]].
    + exists (s "failed to save history: "), (s ", failed to apply: " ++ aerr).
      reflexivity.
    + exists (s "failed to save history: " ++ serr ++ s ", failed to apply: "),
        [].
      rewrite app_nil_r, <- !app_assoc. reflexivity.
  - split; [|reflexivity].
    exists (s "apply succeed, but failed to save history: "), [].
    now rewrite app_nil_r.
Qed.

(** C6.  [Apply] saves the history once if the run changed its length and
    not at all otherwise; [Plan] neither changes the history nor saves
    it; and [Apply] in directory mode with nothing unapplied does
    nothing. *)
Theorem save_only_when_history_changed (r : HistoryRunner) (e : Env) :
  countSaves (calls (snd (Apply ext r e))) =
    countSaves (calls e) +
    (if HistoryLength (hc (snd (Apply ext r e))) =? HistoryLength (hc e)
     then 0 else 1) /\
  hc (snd (Plan ext r e)) = hc e /\
  countSaves (calls (snd (Plan ext r e))) = countSaves (calls e) /\
  (filename r = [] -> UnappliedMigrations (hc e) = [] ->
   Apply ext r e = (None, e)).
Proof.
  split; [|split; [apply Plan_spec | split; [apply Plan_spec|]]].
  - rewrite Apply_unfold.
    pose proof (applyBody_saves r e) as Hs.
    destruct (applyBody ext r e) as [err e1]. cbn [fst snd] in *.
    destruct (Nat.eq_dec (HistoryLength (hc e1)) (HistoryLength (hc e)))
      as [Heq|Hne].
    + rewrite (saveOnExit_unchanged _ _ _ Heq). cbn [snd].
      rewrite Heq, Nat.eqb_refl. lia.
    + rewrite (saveOnExit_changed _ _ _ Hne). cbn [snd hc calls].
      apply Nat.eqb_neq in Hne. rewrite Hne, countSaves_app. cbn. lia.
  - intros Hf Hu. rewrite Apply_unfold. unfold applyBody.
    rewrite Hf. cbn [length Nat.eqb negb].
    unfold applyDir, bind, getHc. rewrite Hu. cbn [length Nat.eqb].
    unfold ret. cbn [fst snd]. now apply saveOnExit_unchanged.
Qed.

(** C7.  In file mode, [Apply] and [Plan] of a file the history records
    fail with the already-applied error and leave everything as it was:
    no call is made and the history is the same. *)
Theorem already_applied_is_refused (r : HistoryRunner) (e : Env) :
  filename r <> [] ->
  In (filename r) (map (@recFilename Time) (records (hc e))) ->
  Apply ext r e = (Some (alreadyAppliedError (filename r)), e) /\
  Plan ext r e = (Some (alreadyAppliedError (filename r)), e) /\
  HistoryLength (hc (snd (Apply ext r e))) = HistoryLength (hc e) /\
  calls (snd (Apply ext r e)) = calls e.
Proof.
  intros Hf Hin. apply AlreadyApplied_In in Hin.
  assert (Hmode : negb (length (filename r) =? 0) = true).
  { destruct (filename r); [congruence | reflexivity]. }
  assert (HA : Apply ext r e = (Some (alreadyAppliedError (filename r)), e)).
  { rewrite Apply_unfold. unfold applyBody. rewrite Hmode.
    rewrite (applyFile_refused r _ e Hin). cbn [fst snd].
    now apply saveOnExit_unchanged. }
  rewrite HA. repeat split.
  unfold Plan. rewrite Hmode. now apply planFile_refused.
Qed.

(** X17.  After a successful [Apply] of a file, a second [Apply] of this
    file is refused and leaves the history as the first left it. *)
Lemma second_Apply_is_refused (r : HistoryRunner) (e e1 : Env) :
  filename r <> [] ->
  Apply ext r e = (None, e1) ->
  Apply ext r e1 = (Some (alreadyAppliedError (filename r)), e1).
Proof.
  intros Hf HA.
  assert (Hmode : negb (length (filename r) =? 0) = true).
  { destruct (filename r); [congruence | reflexivity]. }
  assert (Hin : AlreadyApplied (hc e1) (filename r) = true).
  { rewrite Apply_unfold in HA. unfold applyBody in HA.
    rewrite Hmode in HA.
    destruct (applyFile_spec r (filename r) e) as (new & _ & _ & _ & Hh).
    destruct (applyFile ext r (filename r) e) as [err e0].
    cbn [fst snd] in *.
    assert (Herr : err = None /\ hc e1 = hc e0).
    { destruct (Nat.eq_dec (HistoryLength (hc e0)) (HistoryLength (hc e)))
        as [Heq|Hne].
      - rewrite (saveOnExit_unchanged _ _ _ Heq) in HA.
        inversion HA; subst. auto.
      - rewrite (saveOnExit_changed _ _ _ Hne) in HA.
        inversion HA as [[H1 H2]]. split; [|reflexivity].
        destruct (fst (historySave ext (records (hc e0)) (world e0)));
          destruct err; congruence. }
    destruct Herr as [-> Hhc]. destruct Hh as (ty & nm & t & Hh).
    rewrite Hhc, Hh. apply AlreadyApplied_In.
    cbn [AddRecord records]. rewrite map_app.
    apply in_or_app. right. now left. }
  rewrite Apply_unfold. unfold applyBody. rewrite Hmode.
  rewrite (applyFile_refused r _ e1 Hin). cbn [fst snd].
  now apply saveOnExit_unchanged.
Qed.

(** C8.  In directory mode the unapplied files are applied in order, a
    record being appended after each; when the files [pre] are applied
    and the next, [b], fails with [err], the run stops there: the records
    of [pre] are in the history, every call made is about a file of
    [pre] or about [b], so no later file is attempted, and the error is
    [err].  With nothing unapplied the run succeeds and does nothing. *)
Theorem applyDir_stops_at_first_failure (r : HistoryRunner) (e e1 e2 : Env)
    (pre post : list str) (b err : str) :
  filename r = [] ->
  UnappliedMigrations (hc e) = pre ++ b :: post ->
  applyFiles ext r pre e = (None, e1) ->
  applyFile ext r b e1 = (Some err, e2) ->
  applyDir ext r e = (Some err, e2) /\
  map (@recFilename Time) (records (hc e2)) =
    map (@recFilename Time) (records (hc e)) ++ pre /\
  (exists new,
      calls e2 = calls e ++ new /\
      Forall (aboutFiles ext r (pre ++ [b])) new) /\
  (pre = [] -> Apply ext r e = (Some err, e2)) /\
  (forall w,
      pre <> [] ->
      historySave ext (records (hc e2)) (world e2) = (None, w) ->
      Apply ext r e =
      (Some err, mkEnv (hc e2) w (calls e2 ++ [CallSave (records (hc e2))]))) /\
  (forall e0 : Env,
      UnappliedMigrations (hc e0) = [] -> applyDir ext r e0 = (None, e0)).
Proof.
  intros Hf Hu Hpre Hb.
  assert (HD : applyDir ext r e = (Some err, e2)).
  { unfold applyDir, bind, getHc. rewrite Hu.
    replace (length (pre ++ b :: post) =? 0) with false
      by (symmetry; apply Nat.eqb_neq; rewrite length_app; cbn; lia).
    rewrite applyFiles_app, Hpre. cbn [applyFiles]. unfold bind.
    rewrite Hb. reflexivity. }
  destruct (applyFiles_spec r pre e) as (new1 & Hc1 & _ & _ & Hok).
  rewrite Hpre in Hc1, Hok. cbn [fst snd] in Hc1, Hok.
  destruct (Hok eq_refl) as [Ha1 Hr1].
  destruct (applyFile_spec r b e1) as (new2 & Hc2 & Ha2 & _ & Hh2).
  rewrite Hb in Hc2, Hh2. cbn [fst snd] in Hc2, Hh2.
  assert (Hrec : map (@recFilename Time) (records (hc e2)) =
                 map (@recFilename Time) (records (hc e)) ++ pre)
    by (rewrite Hh2; exact Hr1).
  assert (HA : Apply ext r e =
               saveOnExit ext (HistoryLength (hc e)) (Some err) e2).
  { rewrite Apply_unfold. unfold applyBody. rewrite Hf.
    cbn [length Nat.eqb negb]. rewrite HD. reflexivity. }
  assert (Hlen : HistoryLength (hc e2) = HistoryLength (hc e) + length pre).
  { unfold HistoryLength.
    rewrite <- (length_map (@recFilename Time) (records (hc e2))), Hrec.
    now rewrite length_app, length_map. }
  split; [exact HD|]. split; [exact Hrec|]. split; [|split; [|split]].
  - exists (new1 ++ new2). split.
    + rewrite Hc2, Hc1, <- app_assoc. reflexivity.
    + apply Forall_app. split.
      * eapply Forall_impl; [|exact Ha1].
        intros c (g & Hin & Hg). exists g.
        split; [apply in_or_app; now left | exact Hg].
      * eapply Forall_impl; [|exact Ha2].
        intros c (g & [<-|[]] & Hg). exists b.
        split; [apply in_or_app; right; now left | exact Hg].
  - intros ->. rewrite HA. apply saveOnExit_unchanged.
    rewrite Hlen. cbn. lia.
  - intros w Hne Hsave. rewrite HA.
    rewrite saveOnExit_changed, Hsave; [reflexivity|].
    rewrite Hlen. destruct pre; [congruence | cbn; lia].
  - intros e0 Hu0. unfold applyDir, bind, getHc. rewrite Hu0. reflexivity.
Qed.

End HistoryRunnerProperties.

(** ** The properties at work *)

(** The wildcard move of the indexed addresses "a[...]" to "b[...]" on a
    store that already holds "b[1]": the listing is read once, the first
    move is made, the second fails, and what is returned is its error and
    no snapshot, while the journal of the store keeps the first move. *)
Example StateUpdate_fail_fast_example :
  StateUpdate regexp.go storeCLI
    (NewStateXMvAction (s "a[*]") (s "b[$1]"))
    (Some [s "a[0]"; s "a[1]"; s "b[1]"]) (mkEnv [] []) =
  ((None, Some (s "cannot move a[1]")),
   mkEnv [(s "a[0]", s "b[0]")]
     [CallStateList (Some [s "a[0]"; s "a[1]"; s "b[1]"])
        (Some [s "a[0]"; s "a[1]"; s "b[1]"]) None;
      CallStateMv (Some [s "a[0]"; s "a[1]"; s "b[1]"]) (s "a[0]") (s "b[0]")
        (Some [s "b[0]"; s "a[1]"; s "b[1]"]) None;
      CallStateMv (Some [s "b[0]"; s "a[1]"; s "b[1]"]) (s "a[1]") (s "b[1]")
        None (Some (s "cannot move a[1]"))]).
Proof. vm_compute. reflexivity. Qed.

Lemma StateUpdate_listing_failure_witness :
  tfStateList storeCLI None [] = ((None, Some (s "no state")), []) /\
  StateUpdate regexp.go storeCLI
    (NewStateXMvAction (s "aws_instance.a") (s "aws_instance.b"))
    None (mkEnv [] []) =
  ((None, Some (s "no state")),
   mkEnv [] [CallStateList None None (Some (s "no state"))]).
Proof.
  split; [reflexivity|].
  apply (StateUpdate_listing_failure (list str) (list (str * str))
           regexp.go storeCLI
           (NewStateXMvAction (s "aws_instance.a") (s "aws_instance.b"))
           None (mkEnv [] []) None (s "no state") []).
  reflexivity.
Defined.

Lemma Apply_save_failure_witness :
  let ext := demoFiles [s "migrations/b.hcl"] true in
  let r := demoRunner [] in
  let e := demoEnv [s "a.hcl"; s "b.hcl"] [] in
  fst (command.applyBody ext r e) = Some (s "cannot apply migrations/b.hcl") /\
  fst (command.Apply ext r e) =
  Some (s "failed to save history: storage unavailable, failed to apply: cannot apply migrations/b.hcl").
Proof.
  intros ext r e.
  split; [vm_compute; reflexivity|].
  assert (H1 : command.applyBody ext r e =
               (fst (command.applyBody ext r e),
                snd (command.applyBody ext r e)))
    by (destruct (command.applyBody ext r e); reflexivity).
  assert (H2 : command.HistoryLength
                 (command.hc (snd (command.applyBody ext r e))) <>
               command.HistoryLength (command.hc e))
    by (vm_compute; discriminate).
  assert (H3 : command.historySave ext
                 (command.records
                    (command.hc (snd (command.applyBody ext r e))))
                 (command.world (snd (command.applyBody ext r e))) =
               (Some (s "storage unavailable"), [s "migrations/a.hcl"]))
    by (vm_compute; reflexivity).
  destruct (Apply_save_failure _ _ _ ext r e _ _ _ _ H1 H2 H3)
    as (text & HA & _ & Ht).
  rewrite HA. cbn [fst]. f_equal.
  assert (Hb : fst (command.applyBody ext r e) =
               Some (s "cannot apply migrations/b.hcl"))
    by (vm_compute; reflexivity).
  rewrite Hb in Ht. destruct Ht as [-> _].
  vm_compute. reflexivity.
Defined.

Lemma save_only_when_history_changed_witness :
  let ext := demoFiles [] false in
  let r := demoRunner [] in
  let e := demoEnv [s "a.hcl"] [s "a.hcl"] in
  command.filename r = [] /\
  command.UnappliedMigrations (command.hc e) = [] /\
  command.Apply ext r e = (None, e).
Proof.
  intros ext r e.
  assert (Hf : command.filename r = []) by reflexivity.
  assert (Hu : command.UnappliedMigrations (command.hc e) = [])
    by (vm_compute; reflexivity).
  split; [exact Hf|]. split; [exact Hu|].
  destruct (save_only_when_history_changed _ _ _ ext r e) as (_ & _ & _ & H).
  exact (H Hf Hu).
Defined.

Lemma already_applied_is_refused_witness :
  let ext := demoFiles [] false in
  let r := demoRunner (s "a.hcl") in
  let e := demoEnv [s "a.hcl"; s "b.hcl"] [s "a.hcl"] in
  command.filename r <> [] /\
  In (command.filename r)
    (map (@command.recFilename unit) (command.records (command.hc e))) /\
  command.Apply ext r e =
    (Some (s "a migration has already been applied: a.hcl"), e).
Proof.
  intros ext r e.
  assert (Hf : command.filename r <> []) by discriminate.
  assert (Hin : In (command.filename r)
                  (map (@command.recFilename unit)
                     (command.records (command.hc e))))
    by (left; reflexivity).
  split; [exact Hf|]. split; [exact Hin|].
  destruct (already_applied_is_refused _ _ _ ext r e Hf Hin) as [HA _].
  exact HA.
Defined.

Lemma applyDir_stops_at_first_failure_witness :
  let ext := demoFiles [s "migrations/b.hcl"] false in
  let r := demoRunner [] in
  let e := demoEnv [s "a.hcl"; s "b.hcl"; s "c.hcl"] [] in
  command.UnappliedMigrations (command.hc e) =
    [s "a.hcl"] ++ s "b.hcl" :: [s "c.hcl"] /\
  fst (command.applyDir ext r e) = Some (s "cannot apply migrations/b.hcl") /\
  map (@command.recFilename unit)
    (command.records (command.hc (snd (command.applyDir ext r e)))) =
    [s "a.hcl"] /\
  command.calls (snd (command.applyDir ext r e)) =
    [command.CallNewFileRunner unit (s "migrations/a.hcl");
     command.CallApply unit (s "migrations/a.hcl");
     command.CallNewFileRunner unit (s "migrations/b.hcl");
     command.CallApply unit (s "migrations/b.hcl")].
Proof.
  intros ext r e.
  assert (Hf : command.filename r = []) by reflexivity.
  assert (Hu : command.UnappliedMigrations (command.hc e) =
               [s "a.hcl"] ++ s "b.hcl" :: [s "c.hcl"])
    by (vm_compute; reflexivity).
  assert (H1 : command.applyFiles ext r [s "a.hcl"] e =
               (None, snd (command.applyFiles ext r [s "a.hcl"] e)))
    by (vm_compute; reflexivity).
  assert (H2 : command.applyFile ext r (s "b.hcl")
                 (snd (command.applyFiles ext r [s "a.hcl"] e)) =
               (Some (s "cannot apply migrations/b.hcl"),
                snd (command.applyFile ext r (s "b.hcl")
                       (snd (command.applyFiles ext r [s "a.hcl"] e)))))
    by (vm_compute; reflexivity).
  destruct (applyDir_stops_at_first_failure _ _ _ ext r e _ _ _ _ _ _
              Hf Hu H1 H2) as (HD & Hrec & _).
  split; [exact Hu|]. rewrite HD. cbn [fst snd].
  split; [reflexivity|]. split; [rewrite Hrec|]; vm_compute; reflexivity.
Defined.

(** * Further properties of the expansion *)

(** X1.  The pattern text of a source is the source, character by
    character: the wildcard group for an asterisk, a backslash and the
    character for a special character, the character itself otherwise.  A
    backslash of the source in front of an asterisk does not keep the
    asterisk from being a wildcard. *)
Theorem makeSourceMatchPattern_by_character (x : str) :
  makeSourceMatchPattern x = flat_map piece x /\
  (forall y, makeSourceMatchPattern (x ++ y) =
             makeSourceMatchPattern x ++ makeSourceMatchPattern y) /\
  makeSourceMatchPattern (x ++ BACKSLASH :: "*"%char :: nil) =
    makeSourceMatchPattern x ++ [BACKSLASH; BACKSLASH] ++ matchWildcardRegex.
Proof.
  assert (H : forall z, makeSourceMatchPattern z = flat_map piece z)
    by (intros z; apply replace_QuoteMeta).
  split; [apply H|]. split.
  - intros y. rewrite !H. apply flat_map_app.
  - rewrite !H, flat_map_app. reflexivity.
Qed.

(** X2.  For an ASCII source, with or without wildcards, and every
    listing, [getStateMvActionsForStateList] returns a non-nil slice of
    moves and no error, and so does [getMatchingSourcesFromState] for the
    matching sources. *)
Theorem expansion_has_no_error (a : StateXMvAction) (stateList : list str) :
  isASCII (source a) = true ->
  (exists moves,
      getStateMvActionsForStateList regexp.go a stateList =
      (Some moves, None)) /\
  (exists sources,
      getMatchingSourcesFromState regexp.go a stateList =
      (Some sources, None)).
Proof.
  intros Hascii. split.
  - destruct (in_dec ascii_dec "*"%char (source a)) as [Hw|Hw].
    + rewrite (expansion_of_wildcards a stateList Hascii Hw). eauto.
    + apply nrOfWildcards_zero in Hw.
      unfold getStateMvActionsForStateList. rewrite Hw. cbn. eauto.
  - rewrite (getMatchingSourcesFromState_go _ _ Hascii). eauto.
Qed.

Lemma expansion_has_no_error_witness :
  isASCII (s "module.*[*].r") = true /\
  exists moves,
    getStateMvActionsForStateList regexp.go
      (NewStateXMvAction (s "module.*[*].r") (s "module.$1_$2"))
      [s "module.a[0].r"; s "x"] = (Some moves, None).
Proof.
  split; [reflexivity|].
  apply (expansion_has_no_error
           (NewStateXMvAction (s "module.*[*].r") (s "module.$1_$2"))
           [s "module.a[0].r"; s "x"]).
  reflexivity.
Defined.

(** ** The text and the groups of an occurrence *)

Lemma star_split (k : str -> option regexp.Match) (x : str) :
  forall m cap caps,
    regexp.star k x = Some (m, cap, caps) ->
    exists y m', k y = Some (m', caps) /\ m = cap ++ m'.
Proof.
  induction x as [|c x IH]; intros m cap caps H; rewrite star_unfold in H.
  - destruct (k []) as [[m' caps']|] eqn:Hk; [|discriminate].
    inversion H; subst. exists [], m. auto.
  - destruct (regexp.wildcardClass c).
    + destruct (regexp.star k x) as [[[m' cap'] caps']|] eqn:Hs.
      * inversion H; subst.
        destruct (IH _ _ _ eq_refl) as (y & m2 & Hk & ->).
        exists y, m2. auto.
      * destruct (k (c :: x)) as [[m' caps']|] eqn:Hk; [|discriminate].
        inversion H; subst. exists (c :: x), m. auto.
    + destruct (k (c :: x)) as [[m' caps']|] eqn:Hk; [|discriminate].
      inversion H; subst. exists (c :: x), m. auto.
Qed.

Lemma matchHere_fill (src : str) :
  forall x m caps,
    regexp.matchHere (pattern src) x = Some (m, caps) ->
    m = fill src caps /\ length caps = count_occ ascii_dec src "*"%char.
Proof.
  induction src as [|c src IH]; intros x m caps H.
  - inversion H. auto.
  - cbn [pattern map] in H. unfold tokOf at 1 in H.
    cbn [fill count_occ].
    destruct (Ascii.eqb_spec c "*") as [->|Hne].
    + cbn [regexp.matchHere] in H.
      destruct (regexp.star (regexp.matchHere (map tokOf src)) x)
        as [[[m' cap] caps']|] eqn:Hs; [|discriminate].
      inversion H; subst.
      destruct (star_split _ _ _ _ _ Hs) as (y & m2 & Hk & ->).
      destruct (IH _ _ _ Hk) as [-> Hl].
      destruct (ascii_dec "*" "*") as [_|Hx]; [|congruence].
      cbn [hd tl length]. rewrite Hl. auto.
    + cbn [regexp.matchHere] in H.
      destruct x as [|d x]; [discriminate|].
      destruct (Ascii.eqb_spec c d) as [<-|Hcd]; [|discriminate].
      destruct (regexp.matchHere (map tokOf src) x) as [[m' caps']|] eqn:Hm;
        [|discriminate].
      inversion H; subst.
      destruct (IH _ _ _ Hm) as [-> Hl].
      destruct (ascii_dec c "*") as [Hx|_]; [congruence|]. auto.
Qed.

Lemma In_allMatches (a : StateXMvAction) (x : str) (m : regexp.Loc) :
  In m (regexp.allMatches (pattern (source a)) x) ->
  OccursAt (pattern (source a)) x m.
Proof.
  intros Hin. destruct (allMatches_spec (pattern (source a)) x) as [Hf _].
  rewrite Forall_forall in Hf. auto.
Qed.

(** The text of every occurrence found in a listing is the source
    with each wildcard replaced by the text its group captured, and the
    occurrence has as many groups as the source has wildcards. *)
Theorem occurrence_is_the_filled_source (a : StateXMvAction)
    (stateList : list str) (m : regexp.Loc) :
  In m (regexp.allMatches (pattern (source a))
          (strings.Join stateList [LF])) ->
  regexp.substr (strings.Join stateList [LF]) (regexp.lo m) (regexp.hi m) =
    fill (source a) (regexp.groups m) /\
  length (regexp.groups m) = nrOfWildcards a.
Proof.
  intros Hin. apply In_allMatches in Hin. destruct Hin as (_ & _ & Hm).
  destruct (matchHere_fill _ _ _ _ Hm) as [Hf Hl].
  split; [exact Hf|]. rewrite Hl. unfold nrOfWildcards.
  symmetry. apply countFrom_wildcard.
Qed.

Lemma occurrence_is_the_filled_source_witness :
  let a := NewStateXMvAction (s "module.*[*].r") (s "x") in
  let stateList := [s "module.a[0].r"; s "module.b[17].r"] in
  let m := regexp.mkLoc 14 28 [s "b"; s "17"] in
  In m (regexp.allMatches (pattern (source a))
          (strings.Join stateList [LF])) /\
  s "module.b[17].r" = fill (source a) [s "b"; s "17"] /\
  2 = nrOfWildcards a.
Proof.
  intros a stateList m.
  assert (Hin : In m (regexp.allMatches (pattern (source a))
                        (strings.Join stateList [LF])))
    by (vm_compute; right; left; reflexivity).
  split; [exact Hin|].
  exact (occurrence_is_the_filled_source a stateList m Hin).
Defined.

(** ** Occurrences and entries *)

Lemma fill_chars (src : str) :
  forall caps c,
    In c (fill src caps) ->
    In c src \/ exists cap, In cap caps /\ In c cap.
Proof.
  induction src as [|d src IH]; intros caps c Hin; cbn [fill] in Hin.
  - destruct Hin.
  - destruct (Ascii.eqb d "*").
    + apply in_app_or in Hin. destruct Hin as [Hin|Hin].
      * right. exists (hd [] caps). split; [|exact Hin].
        destruct caps as [|cap caps]; [destruct Hin | now left].
      * destruct (IH _ _ Hin) as [H|(cap & Hc & H)]; [left; now right|].
        right. exists cap. split; [|exact H].
        destruct caps as [|cap0 caps]; [destruct Hc | now right].
    + destruct Hin as [->|Hin]; [left; now left|].
      destruct (IH _ _ Hin) as [H|H]; [left; now right | now right].
Qed.

Lemma contains_substr (x : str) (a b : nat) :
  contains x (regexp.substr x a b).
Proof.
  exists (firstn a x), (skipn (b - a) (skipn a x)).
  unfold regexp.substr. now rewrite !firstn_skipn.
Qed.

(** A part of a joined listing that holds no separator lies in one of its
    entries. *)
Lemma substr_of_Join (stateList : list str) :
  stateList <> [] ->
  forall a b,
    a <= b ->
    ~ In LF (regexp.substr (strings.Join stateList [LF]) a b) ->
    exists entry,
      In entry stateList /\
      contains entry (regexp.substr (strings.Join stateList [LF]) a b).
Proof.
  induction stateList as [|e rest IH]; intros Hne a b Hab Hlf; [congruence|].
  destruct rest as [|e' rest].
  - exists e. split; [now left | apply contains_substr].
  - change (strings.Join (e :: e' :: rest) [LF])
      with (e ++ LF :: strings.Join (e' :: rest) [LF]) in *.
    set (J := strings.Join (e' :: rest) [LF]) in *.
    unfold regexp.substr in *.
    destruct (Nat.le_gt_cases b (length e)) as [Hb|Hb].
    + exists e. split; [now left|].
      rewrite skipn_app, firstn_app.
      replace (b - a - length (skipn a e)) with 0
        by (rewrite length_skipn; lia).
      cbn [firstn]. rewrite app_nil_r.
      exists (firstn a e), (skipn (b - a) (skipn a e)).
      now rewrite !firstn_skipn.
    + destruct (Nat.le_gt_cases a (length e)) as [Ha|Ha].
      * exfalso. apply Hlf.
        rewrite skipn_app, firstn_app. apply in_or_app. right.
        replace (a - length e) with 0 by lia. cbn [skipn].
        rewrite length_skipn.
        replace (b - a - (length e - a)) with (S (b - length e - 1)) by lia.
        now left.
      * assert (Hs : skipn a (e ++ LF :: J) = skipn (a - length e - 1) J).
        { rewrite skipn_app, (skipn_all2 e) by lia. cbn [app].
          destruct (a - length e) as [|n] eqn:Hn; [lia|].
          cbn [skipn]. f_equal. lia. }
        rewrite Hs in *.
        destruct (IH ltac:(discriminate) (a - length e - 1)
                    (b - length e - 1) ltac:(lia)) as (entry & Hin & Hc).
        -- fold J.
           replace (b - length e - 1 - (a - length e - 1)) with (b - a)
             by lia.
           exact Hlf.
        -- exists entry. split; [now right|].
           fold J in Hc.
           replace (b - length e - 1 - (a - length e - 1)) with (b - a)
             in Hc by lia.
           exact Hc.
Qed.

(** X4.  When an ASCII source has a wildcard and holds no newline, and the
    listing is not empty, the source of every move generated is a part of
    one entry of the listing: no move reaches over two entries.  (Without
    wildcard the one move has the source of the action, in the listing or
    not.) *)
Theorem move_source_inside_an_entry (a : StateXMvAction)
    (stateList : list str) (moves : list StateMvAction)
    (move : StateMvAction) :
  isASCII (source a) = true ->
  In "*"%char (source a) ->
  ~ In LF (source a) ->
  stateList <> [] ->
  getStateMvActionsForStateList regexp.go a stateList = (Some moves, None) ->
  In move moves ->
  exists entry, In entry stateList /\ contains entry (mvSource move).
Proof.
  intros Hascii Hw Hlf Hne He Hin.
  rewrite (expansion_of_wildcards a stateList Hascii Hw) in He.
  inversion He; subst moves. apply in_map_iff in Hin.
  destruct Hin as (m & <- & Hm). cbn [moveOf mvSource].
  apply In_allMatches in Hm. destruct Hm as (Hlh & _ & Hm).
  apply (substr_of_Join stateList Hne _ _ Hlh).
  intros Hin.
  destruct (matchHere_fill _ _ _ _ Hm) as [Hf _].
  rewrite Hf in Hin.
  destruct (fill_chars _ _ _ Hin) as [H|(cap & Hcap & H)]; [contradiction|].
  apply matchHere_captures in Hm.
  rewrite Forall_forall in Hm. specialize (Hm _ Hcap).
  rewrite Forall_forall in Hm. specialize (Hm _ H). discriminate Hm.
Qed.

Lemma move_source_inside_an_entry_witness :
  let a := NewStateXMvAction (s "module.*.r") (s "module.$1.q") in
  let stateList := [s "xmodule.a.r"; s "module.b.r"] in
  isASCII (source a) = true /\ In "*"%char (source a) /\
  ~ In LF (source a) /\ stateList <> [] /\
  exists entry,
    In entry stateList /\ contains entry (s "module.a.r").
Proof.
  intros a stateList.
  assert (H1 : isASCII (source a) = true) by reflexivity.
  assert (H2 : In "*"%char (source a)) by (cbn; tauto).
  assert (H3 : ~ In LF (source a)).
  { cbn. intros H. repeat (destruct H as [H|H]; [discriminate H|]). exact H. }
  assert (H4 : stateList <> []) by discriminate.
  repeat (split; [assumption|]).
  apply (move_source_inside_an_entry a stateList
           [mkStateMvAction (s "module.a.r") (s "module.a.q");
            mkStateMvAction (s "module.b.r") (s "module.b.q")]
           (mkStateMvAction (s "module.a.r") (s "module.a.q"))
           H1 H2 H3 H4).
  - vm_compute. reflexivity.
  - left. reflexivity.
Defined.

(** ** Destinations *)

(** X5.  When the destination holds no dollar sign, every move generated
    from a wildcard source has the destination itself as its destination,
    whatever its source: with several occurrences all the moves go to the
    same address. *)
Theorem destination_without_placeholder (a : StateXMvAction)
    (stateList : list str) (moves : list StateMvAction) :
  isASCII (source a) = true ->
  In "*"%char (source a) ->
  ~ In "$"%char (destination a) ->
  getStateMvActionsForStateList regexp.go a stateList = (Some moves, None) ->
  Forall (fun move => mvDestination move = destination a) moves.
Proof.
  intros Hascii Hw Hd He.
  rewrite (expansion_of_wildcards a stateList Hascii Hw) in He.
  inversion He; subst moves. apply Forall_forall. intros move Hin.
  apply in_map_iff in Hin. destruct Hin as (m & <- & _).
  cbn [moveOf mvDestination]. now apply expand_plain.
Qed.

Lemma destination_without_placeholder_witness :
  let a := NewStateXMvAction (s "a[*]") (s "b") in
  let stateList := [s "a[0]"; s "a[1]"] in
  isASCII (source a) = true /\ In "*"%char (source a) /\
  ~ In "$"%char (destination a) /\
  getStateMvActionsForStateList regexp.go a stateList =
    (Some [mkStateMvAction (s "a[0]") (s "b");
           mkStateMvAction (s "a[1]") (s "b")], None) /\
  Forall (fun move => mvDestination move = s "b")
    [mkStateMvAction (s "a[0]") (s "b"); mkStateMvAction (s "a[1]") (s "b")].
Proof.
  intros a stateList.
  assert (H1 : isASCII (source a) = true) by reflexivity.
  assert (H2 : In "*"%char (source a)) by (cbn; tauto).
  assert (H3 : ~ In "$"%char (destination a)).
  { cbn. intros [H|H]; [discriminate H | exact H]. }
  assert (H4 : getStateMvActionsForStateList regexp.go a stateList =
               (Some [mkStateMvAction (s "a[0]") (s "b");
                      mkStateMvAction (s "a[1]") (s "b")], None))
    by (vm_compute; reflexivity).
  repeat (split; [assumption|]).
  exact (destination_without_placeholder a stateList _ H1 H2 H3 H4).
Defined.

(** X6.  When the destination is a text, the placeholder of group [d] in
    braces and a text, the texts without dollar sign, the destination of
    every move is the first text, what group [d] captured at the
    occurrence of the move (the whole occurrence for group 0, nothing for
    a group the source does not have) and the second text. *)
Theorem destination_with_placeholder (a : StateXMvAction)
    (stateList : list str) (before after : str) (d : ascii) :
  isASCII (source a) = true ->
  In "*"%char (source a) ->
  regexp.isDigit d = true ->
  ~ In "$"%char before -> ~ In "$"%char after ->
  destination a = before ++ s "${" ++ d :: s "}" ++ after ->
  let text := strings.Join stateList [LF] in
  getStateMvActionsForStateList regexp.go a stateList =
  (Some (map (fun m =>
                let found := regexp.substr text (regexp.lo m) (regexp.hi m) in
                mkStateMvAction found
                  (before ++
                   regexp.groupAt (found :: regexp.groups m)
                     (N_of_ascii d - 48) ++ after))
           (regexp.allMatches (pattern (source a)) text)),
   None).
Proof.
  intros Hascii Hw Hd Hb Ha Hdest text.
  rewrite (expansion_of_wildcards a stateList Hascii Hw). fold text.
  do 2 f_equal. apply map_ext. intros m. unfold moveOf. cbv zeta. f_equal.
  rewrite Hdest.
  rewrite (expand_placeholder _ before after d Hb Hd).
  now rewrite (expand_plain _ _ after Ha).
Qed.

Lemma destination_with_placeholder_witness :
  let a := NewStateXMvAction (s "module.a[*].r") (s "module.new[${1}].r") in
  let stateList := [s "module.a[0].r"; s "module.a[1].r"; s "module.b.r"] in
  isASCII (source a) = true /\ In "*"%char (source a) /\
  regexp.isDigit "1" = true /\
  ~ In "$"%char (s "module.new[") /\ ~ In "$"%char (s "].r") /\
  getStateMvActionsForStateList regexp.go a stateList =
  (Some [mkStateMvAction (s "module.a[0].r") (s "module.new[0].r");
         mkStateMvAction (s "module.a[1].r") (s "module.new[1].r")], None).
Proof.
  intros a stateList.
  assert (H1 : isASCII (source a) = true) by reflexivity.
  assert (H2 : In "*"%char (source a)) by (cbn; tauto).
  assert (H3 : regexp.isDigit "1" = true) by reflexivity.
  assert (H4 : ~ In "$"%char (s "module.new[")).
  { cbn. intros H. repeat (destruct H as [H|H]; [discriminate H|]). exact H. }
  assert (H5 : ~ In "$"%char (s "].r")).
  { cbn. intros H. repeat (destruct H as [H|H]; [discriminate H|]). exact H. }
  repeat (split; [assumption|]).
  rewrite (destination_with_placeholder a stateList (s "module.new[")
             (s "].r") "1" H1 H2 H3 H4 H5 eq_refl).
  vm_compute. reflexivity.
Defined.

Lemma nameLen_app (name after : str) :
  forallb regexp.isNameChar name = true ->
  regexp.nameLen after = 0 ->
  regexp.nameLen (name ++ after) = length name.
Proof.
  induction name as [|c name IH]; intros Hn Ha; [exact Ha|].
  cbn [forallb] in Hn. apply andb_true_iff in Hn. destruct Hn as [Hc Hn].
  cbn [app regexp.nameLen length]. rewrite Hc. f_equal. now apply IH.
Qed.

Lemma parseNum_not_a_number (name : str) :
  existsb (fun c => negb (regexp.isDigit c)) name = true ->
  forall n, regexp.parseNum n name = None.
Proof.
  induction name as [|c name IH]; intros He n; [discriminate|].
  cbn [existsb] in He. cbn [regexp.parseNum].
  destruct (regexp.isDigit c); cbn [negb orb] in *.
  - destruct (100000000 <=? n)%N; [reflexivity | now apply IH].
  - reflexivity.
Qed.

Lemma extract_name (name after : str) :
  name <> [] ->
  forallb regexp.isNameChar name = true ->
  existsb (fun c => negb (regexp.isDigit c)) name = true ->
  regexp.nameLen after = 0 ->
  regexp.extract (name ++ after) = Some (name, None, after).
Proof.
  intros Hne Hn Hd Ha. unfold regexp.extract.
  destruct name as [|c name]; [congruence|]. cbn [app].
  assert (Hc : regexp.isNameChar c = true).
  { cbn [forallb] in Hn. now apply andb_true_iff in Hn. }
  assert (Hb : Ascii.eqb c "{" = false).
  { apply Ascii.eqb_neq. intros ->. discriminate Hc. }
  rewrite Hb.
  change (c :: name ++ after) with ((c :: name) ++ after).
  rewrite (nameLen_app _ _ Hn Ha).
  rewrite firstn_app, firstn_all, Nat.sub_diag. cbn [firstn].
  rewrite app_nil_r.
  rewrite skipn_app, skipn_all, Nat.sub_diag. cbn [skipn app length Nat.eqb].
  assert (Hp : regexp.parseNum 0 (c :: name) = None)
    by (now apply parseNum_not_a_number).
  rewrite Hp. destruct name; [reflexivity|].
  destruct (Ascii.eqb c "0"); reflexivity.
Qed.

(** X7.  A dollar sign followed by a name, letters, digits and underscores
    that are not all digits, refers to a group of that name, and the
    pattern of a source has none: when the ASCII destination is a text,
    such a reference and a text that does not go on with a name character,
    the texts without dollar sign, the reference is dropped and the
    destination of every move generated from an ASCII wildcard source is
    the two texts.  So in "module.$1_new" the reference is to the group
    "1_new", not to the first wildcard. *)
Theorem destination_with_named_reference (a : StateXMvAction)
    (stateList : list str) (moves : list StateMvAction)
    (before name after : str) :
  isASCII (source a) = true ->
  isASCII (destination a) = true ->
  In "*"%char (source a) ->
  name <> [] ->
  forallb regexp.isNameChar name = true ->
  existsb (fun c => negb (regexp.isDigit c)) name = true ->
  regexp.nameLen after = 0 ->
  ~ In "$"%char before -> ~ In "$"%char after ->
  destination a = before ++ "$"%char :: name ++ after ->
  getStateMvActionsForStateList regexp.go a stateList = (Some moves, None) ->
  Forall (fun move => mvDestination move = before ++ after) moves.
Proof.
  intros Hascii _ Hw Hne Hn Hd Hna Hb Ha Hdest He.
  rewrite (expansion_of_wildcards a stateList Hascii Hw) in He.
  inversion He; subst moves. apply Forall_forall. intros move Hin.
  apply in_map_iff in Hin. destruct Hin as (m & <- & _).
  cbn [moveOf mvDestination]. rewrite Hdest.
  cbn [regexp.expand]. rewrite (Cut_first _ _ _ Hb). f_equal.
  destruct name as [|c name]; [congruence|]. cbn [app].
  assert (Hc : regexp.isNameChar c = true).
  { cbn [forallb] in Hn. now apply andb_true_iff in Hn. }
  assert (Hdollar : Ascii.eqb c "$" = false).
  { apply Ascii.eqb_neq. intros ->. discriminate Hc. }
  rewrite Hdollar.
  change (c :: name ++ after) with ((c :: name) ++ after).
  rewrite (extract_name _ _ Hne Hn Hd Hna). cbn [app].
  now apply expand_plain.
Qed.

Lemma destination_with_named_reference_witness :
  let a := NewStateXMvAction (s "module.*.r") (s "module.$1_new") in
  let stateList := [s "module.a.r"] in
  isASCII (source a) = true /\ isASCII (destination a) = true /\
  In "*"%char (source a) /\
  getStateMvActionsForStateList regexp.go a stateList =
    (Some [mkStateMvAction (s "module.a.r") (s "module.")], None) /\
  Forall (fun move => mvDestination move = s "module." ++ [])
    [mkStateMvAction (s "module.a.r") (s "module.")].
Proof.
  intros a stateList.
  assert (H1 : isASCII (source a) = true) by reflexivity.
  assert (H0 : isASCII (destination a) = true) by reflexivity.
  assert (H2 : In "*"%char (source a)) by (cbn; tauto).
  assert (H3 : ~ In "$"%char (s "module.")).
  { cbn. intros H. repeat (destruct H as [H|H]; [discriminate H|]). exact H. }
  assert (H4 : getStateMvActionsForStateList regexp.go a stateList =
               (Some [mkStateMvAction (s "module.a.r") (s "module.")], None))
    by (vm_compute; reflexivity).
  repeat (split; [assumption|]).
  apply (destination_with_named_reference a stateList _
           (s "module.") (s "1_new") [] H1 H0 H2).
  - discriminate.
  - reflexivity.
  - reflexivity.
  - reflexivity.
  - exact H3.
  - intros [].
  - reflexivity.
  - exact H4.
Defined.

(** * Further properties of StateUpdate *)

Lemma In_Join (stateList : list str) (c : ascii) :
  In c (strings.Join stateList [LF]) ->
  c = LF \/ exists entry, In entry stateList /\ In c entry.
Proof.
  induction stateList as [|e rest IH]; intros Hin; [destruct Hin|].
  destruct rest as [|e' rest].
  - right. exists e. split; [now left | exact Hin].
  - change (strings.Join (e :: e' :: rest) [LF])
      with (e ++ LF :: strings.Join (e' :: rest) [LF]) in Hin.
    apply in_app_or in Hin. destruct Hin as [Hin|[Hin|Hin]].
    + right. exists e. split; [now left | exact Hin].
    + now left.
    + destruct (IH Hin) as [H|(entry & He & H)]; [now left|].
      right. exists entry. split; [now right | exact H].
Qed.

Lemma fill_literal (src : str) (c : ascii) :
  In c src -> c <> "*"%char -> forall caps, In c (fill src caps).
Proof.
  induction src as [|d src IH]; intros Hin Hc caps; [destruct Hin|].
  cbn [fill]. destruct (Ascii.eqb_spec d "*") as [->|Hd].
  - destruct Hin as [Hin|Hin]; [congruence|].
    apply in_or_app. right. now apply IH.
  - destruct Hin as [->|Hin]; [now left | right; now apply IH].
Qed.

(** A source with a character, not the asterisk, that the listing does not
    hold occurs nowhere in the listing. *)
Lemma no_occurrence_without_literal (a : StateXMvAction)
    (stateList : list str) (c : ascii) :
  In c (source a) -> c <> "*"%char -> c <> LF ->
  (forall entry, In entry stateList -> ~ In c entry) ->
  regexp.allMatches (pattern (source a)) (strings.Join stateList [LF]) = [].
Proof.
  intros Hin Hc Hlf Hno.
  destruct (regexp.allMatches (pattern (source a))
              (strings.Join stateList [LF])) as [|m ms] eqn:Hm;
    [reflexivity|].
  exfalso.
  assert (Hocc : OccursAt (pattern (source a))
                   (strings.Join stateList [LF]) m)
    by (apply In_allMatches; rewrite Hm; now left).
  destruct Hocc as (_ & _ & Hmatch).
  destruct (matchHere_fill _ _ _ _ Hmatch) as [Hf _].
  pose proof (fill_literal _ _ Hin Hc (regexp.groups m)) as Hcm.
  rewrite <- Hf in Hcm.
  destruct (contains_substr (strings.Join stateList [LF])
              (regexp.lo m) (regexp.hi m)) as (pre & post & HJ).
  assert (HcJ : In c (strings.Join stateList [LF])).
  { rewrite HJ. apply in_or_app. right. apply in_or_app. now left. }
  destruct (In_Join _ _ HcJ) as [H|(entry & He & H)]; [congruence|].
  exact (Hno entry He H).
Qed.

Section StateUpdateFurther.

Variables State World : Type.
Variable tf : TerraformCLI State World.

Lemma MoveChain_moved (actions : list StateMvAction)
    (state : ptr State) (w : World) (cs : list (Call State))
    (r : ptr State * error) (w' : World) :
  MoveChain tf actions state w cs r w' ->
  (exists n, flat_map (@movedBy State) cs = firstn n actions) /\
  (snd r = None -> flat_map (@movedBy State) cs = actions) /\
  (snd r <> None -> fst r = None).
Proof.
  induction 1 as [state w|action rest state w out w1 cs r w2 Hmv Hch IH
                 |action rest state w out err w1 Hmv].
  - split; [exists 0; reflexivity|]. split; [reflexivity|].
    cbn. congruence.
  - destruct IH as ((n & Hn) & Hall & Hnil).
    assert (Hact : mkStateMvAction (mvSource action) (mvDestination action)
                   = action) by (destruct action; reflexivity).
    cbn [flat_map movedBy app]. rewrite Hact.
    split; [exists (S n); cbn [firstn]; now rewrite Hn|].
    split; [intros Hr; now rewrite (Hall Hr) | exact Hnil].
  - assert (Hact : mkStateMvAction (mvSource action) (mvDestination action)
                   = action) by (destruct action; reflexivity).
    cbn [flat_map movedBy app]. rewrite Hact.
    split; [exists 1; reflexivity|]. split; [discriminate | reflexivity].
Qed.

(** X8.  When the listing succeeds and the expansion gives the moves
    [moves], the moves [StateUpdate] makes through the command line are the
    first of [moves], in their order, and all of them when it returns no
    error; when it returns an error the snapshot it returns is nil. *)
Theorem StateUpdate_moves_in_order (re : regexp.Package)
    (a : StateXMvAction) (state : ptr State) (e : Env State World)
    (out : slice str) (w1 : World) (moves : slice StateMvAction) :
  tfStateList tf state (world e) = ((out, None), w1) ->
  getStateMvActionsForStateList re a (elems out) = (moves, None) ->
  exists cs,
    calls (snd (StateUpdate re tf a state e)) =
      calls e ++ CallStateList state out None :: cs /\
    (exists n, flat_map (@movedBy State) cs = firstn n (elems moves)) /\
    (snd (fst (StateUpdate re tf a state e)) = None ->
     flat_map (@movedBy State) cs = elems moves) /\
    (snd (fst (StateUpdate re tf a state e)) <> None ->
     fst (fst (StateUpdate re tf a state e)) = None).
Proof.
  intros Hl Hg.
  destruct (StateUpdate_run State World re tf a state e)
    as (out' & lerr & w1' & cs & Hl' & Hc & H).
  rewrite Hl in Hl'. inversion Hl'; subst out' lerr w1'.
  rewrite Hg in H. exists cs. split; [exact Hc|].
  exact (MoveChain_moved _ _ _ _ _ _ H).
Qed.

(** X9.  When a character of the source, not the asterisk and not the
    newline, is in no entry of the listing, the source occurs nowhere: the
    expansion of a wildcard source is the empty slice, and [StateUpdate]
    returns the snapshot it was given and no error, having called the
    listing and nothing else. *)
Theorem StateUpdate_without_occurrence (a : StateXMvAction)
    (state : ptr State) (e : Env State World)
    (out : slice str) (w1 : World) (c : ascii) :
  isASCII (source a) = true ->
  In "*"%char (source a) ->
  In c (source a) -> c <> "*"%char -> c <> LF ->
  (forall entry, In entry (elems out) -> ~ In c entry) ->
  tfStateList tf state (world e) = ((out, None), w1) ->
  getStateMvActionsForStateList regexp.go a (elems out) = (Some [], None) /\
  StateUpdate regexp.go tf a state e =
    ((state, None), mkEnv w1 (calls e ++ [CallStateList state out None])).
Proof.
  intros Hascii Hw Hin Hc Hlf Hno Hl.
  assert (Hg : getStateMvActionsForStateList regexp.go a (elems out) =
               (Some [], None)).
  { rewrite (expansion_of_wildcards a (elems out) Hascii Hw).
    now rewrite (no_occurrence_without_literal a (elems out) c). }
  split; [exact Hg|].
  unfold StateUpdate, generateMvActions, bind, StateList.
  rewrite Hl. unfold ret. rewrite Hg. reflexivity.
Qed.

(** X10.  For a source without wildcard [StateUpdate] is the plain move:
    after the listing, whose addresses are not looked at, it calls the
    move of the source to the destination once, on the snapshot it was
    given, and returns the snapshot of this call, or nil with the error of
    the call. *)
Theorem StateUpdate_without_wildcard (re : regexp.Package)
    (a : StateXMvAction) (state : ptr State) (e : Env State World)
    (out : slice str) (w1 w2 : World) (moved : ptr State) (merr : error) :
  ~ In "*"%char (source a) ->
  tfStateList tf state (world e) = ((out, None), w1) ->
  tfStateMv tf state (source a) (destination a) w1 = ((moved, merr), w2) ->
  StateUpdate re tf a state e =
    ((match merr with None => moved | Some _ => None end, merr),
     mkEnv w2
       (calls e ++
        [CallStateList state out None;
         CallStateMv state (source a) (destination a) moved merr])).
Proof.
  intros Hw Hl Hmv. apply nrOfWildcards_zero in Hw.
  unfold StateUpdate, generateMvActions, bind, StateList.
  rewrite Hl. unfold ret, getStateMvActionsForStateList. rewrite Hw.
  cbn [Nat.eqb elems applyMvActions NewStateMvAction].
  unfold bind, StateMvAction_StateUpdate, StateMv, NewStateMvAction.
  cbn [world calls mvSource mvDestination].
  rewrite Hmv. rewrite <- app_assoc. destruct merr; reflexivity.
Qed.

End StateUpdateFurther.

Lemma StateUpdate_moves_in_order_witness :
  let a := NewStateXMvAction (s "a[*]") (s "b[$1]") in
  let state := Some [s "a[0]"; s "a[1]"; s "b[1]"] in
  tfStateList storeCLI state [] = ((state, None), []) /\
  exists cs,
    calls (snd (StateUpdate regexp.go storeCLI a state (mkEnv [] []))) =
      [] ++ CallStateList state state None :: cs /\
    (exists n,
        flat_map (@movedBy (list str)) cs =
        firstn n [mkStateMvAction (s "a[0]") (s "b[0]");
                  mkStateMvAction (s "a[1]") (s "b[1]")]).
Proof.
  intros a state. split; [reflexivity|].
  destruct (StateUpdate_moves_in_order (list str) (list (str * str)) storeCLI
              regexp.go a state (mkEnv [] []) state []
              (Some [mkStateMvAction (s "a[0]") (s "b[0]");
                     mkStateMvAction (s "a[1]") (s "b[1]")]))
    as (cs & Hc & Hn & _).
  - reflexivity.
  - vm_compute. reflexivity.
  - exists cs. split; [exact Hc | exact Hn].
Defined.

Lemma StateUpdate_without_occurrence_witness :
  let a := NewStateXMvAction (s "module.a[*]") (s "module.b[$1]") in
  let state := Some [s "aws_instance.x"; s "aws_instance.y"] in
  isASCII (source a) = true /\ In "*"%char (source a) /\
  In "m"%char (source a) /\
  StateUpdate regexp.go storeCLI a state (mkEnv [] []) =
    ((state, None), mkEnv [] [CallStateList state state None]).
Proof.
  intros a state.
  assert (H1 : isASCII (source a) = true) by reflexivity.
  assert (H2 : In "*"%char (source a)) by (cbn; tauto).
  assert (H3 : In "m"%char (source a)) by (left; reflexivity).
  repeat (split; [assumption|]).
  apply (StateUpdate_without_occurrence (list str) (list (str * str))
           storeCLI a state (mkEnv [] []) state [] "m" H1 H2 H3).
  - discriminate.
  - discriminate.
  - intros entry [<-|[<-|[]]] H;
      cbn in H; repeat (destruct H as [H|H]; [discriminate H|]); exact H.
  - reflexivity.
Defined.

Lemma StateUpdate_without_wildcard_witness :
  let a := NewStateXMvAction (s "a[0]") (s "b[0]") in
  let state := Some [s "a[0]"; s "a[1]"] in
  ~ In "*"%char (source a) /\
  StateUpdate brokenRegexp storeCLI a state (mkEnv [] []) =
    ((Some [s "b[0]"; s "a[1]"], None),
     mkEnv [(s "a[0]", s "b[0]")]
       [CallStateList state state None;
        CallStateMv state (s "a[0]") (s "b[0]")
          (Some [s "b[0]"; s "a[1]"]) None]).
Proof.
  intros a state.
  assert (H1 : ~ In "*"%char (source a)).
  { cbn. intros H. repeat (destruct H as [H|H]; [discriminate H|]). exact H. }
  split; [exact H1|].
  apply (StateUpdate_without_wildcard (list str) (list (str * str)) storeCLI
           brokenRegexp a state (mkEnv [] []) state [] [(s "a[0]", s "b[0]")]
           (Some [s "b[0]"; s "a[1]"]) None H1); reflexivity.
Defined.

(** * Further properties of the runner *)

Section HistoryRunnerFurther.

Import command.

Variables World Time FileRunner : Type.
Variable ext : Collaborators World Time FileRunner.

Let Env : Type := command.Env World Time.
Let HistoryRunner : Type := command.HistoryRunner.

(** What [planFile] does: it calls about this file only, to create the
    runner and to plan. *)
Lemma planFile_calls (r : HistoryRunner) (f : str) (e : Env) :
  exists new,
    calls (snd (planFile ext r f e)) = calls e ++ new /\
    Forall (aboutFiles ext r [f]) new /\
    Forall (@planningCall Time) new.
Proof.
  assert (Hab : forall c,
             c = CallNewFileRunner Time (resolvePath ext r f) \/
             c = CallPlan Time (resolvePath ext r f) \/
             c = CallApply Time (resolvePath ext r f) ->
             aboutFiles ext r [f] c).
  { intros c Hc. exists f. split; [now left | exact Hc]. }
  unfold planFile, bind, getHc.
  destruct (AlreadyApplied (hc e) f).
  - exists []. cbn. rewrite app_nil_r. auto.
  - unfold NewFileRunner.
    destruct (newFileRunner ext (resolvePath ext r f) (world e))
      as [[fr|err] w1].
    + unfold FileRunner_Plan. cbn [world hc calls].
      destruct (frPlan ext fr w1) as [err w2].
      eexists. cbn. rewrite <- app_assoc. split; [reflexivity|].
      split; repeat constructor; apply Hab; auto.
    + eexists. cbn. split; [reflexivity|].
      split; repeat constructor; apply Hab; auto.
Qed.

Lemma planFiles_calls (r : HistoryRunner) (files : list str) :
  forall e : Env,
  exists new,
    calls (snd (planFiles ext r files e)) = calls e ++ new /\
    Forall (@planningCall Time) new /\
    (fst (planFiles ext r files e) = None ->
     Forall (aboutFiles ext r files) new).
Proof.
  induction files as [|f files IH]; intros e.
  - exists []. cbn. rewrite app_nil_r. auto.
  - cbn [planFiles]. unfold bind.
    destruct (planFile_calls r f e) as (new1 & Hc1 & Ha1 & Hp1).
    destruct (planFile ext r f e) as [[err|] e1]; cbn [fst snd] in *.
    + exists new1. unfold ret. cbn [fst snd].
      repeat split; auto; discriminate.
    + destruct (IH e1) as (new2 & Hc2 & Hp2 & Hok).
      exists (new1 ++ new2). rewrite Hc2, Hc1, <- app_assoc.
      split; [reflexivity|]. split; [apply Forall_app; auto|].
      intros Hnone. apply Forall_app. split.
      * eapply Forall_impl; [|exact Ha1].
        intros c (g & [<-|[]] & Hg). exists f. split; [now left | exact Hg].
      * eapply Forall_impl; [|exact (Hok Hnone)].
        intros c (g & Hin & Hg). exists g. split; [now right | exact Hg].
Qed.

Lemma planFiles_app (r : HistoryRunner) (l1 l2 : list str) :
  forall e : Env,
    planFiles ext r (l1 ++ l2) e =
    match planFiles ext r l1 e with
    | (Some err, e') => (Some err, e')
    | (None, e') => planFiles ext r l2 e'
    end.
Proof.
  induction l1 as [|f l1 IH]; intros e; [reflexivity|].
  cbn [app planFiles]. unfold bind.
  destruct (planFile ext r f e) as [[err|] e1]; [reflexivity | apply IH].
Qed.

(** X11.  In directory mode [Plan] plans the unapplied files in order and
    stops at the first that fails: when the files [pre] are planned and the
    next, [b], fails with [err], [planDir] returns [err], every call made
    is the creation or the plan of a runner of a file of [pre] or of [b],
    so no later file is planned, and the history is as it was. *)
Theorem planDir_stops_at_first_failure (r : HistoryRunner) (e e1 e2 : Env)
    (pre post : list str) (b err : str) :
  UnappliedMigrations (hc e) = pre ++ b :: post ->
  planFiles ext r pre e = (None, e1) ->
  planFile ext r b e1 = (Some err, e2) ->
  planDir ext r e = (Some err, e2) /\
  hc e2 = hc e /\
  exists new,
    calls e2 = calls e ++ new /\
    Forall (aboutFiles ext r (pre ++ [b])) new /\
    Forall (@planningCall Time) new.
Proof.
  intros Hu Hpre Hb.
  assert (HD : planDir ext r e = (Some err, e2)).
  { unfold planDir, bind, getHc. rewrite Hu.
    replace (length (pre ++ b :: post) =? 0) with false
      by (symmetry; apply Nat.eqb_neq; rewrite length_app; cbn; lia).
    rewrite planFiles_app, Hpre. cbn [planFiles]. unfold bind.
    rewrite Hb. reflexivity. }
  split; [exact HD|]. split.
  - destruct (planFiles_spec _ _ _ ext r pre e) as [Hh1 _].
    destruct (planFile_spec _ _ _ ext r b e1) as [Hh2 _].
    rewrite Hpre in Hh1. rewrite Hb in Hh2. cbn [snd] in *. congruence.
  - destruct (planFiles_calls r pre e) as (new1 & Hc1 & Hp1 & Hok).
    rewrite Hpre in Hc1, Hok. cbn [fst snd] in Hc1, Hok.
    destruct (planFile_calls r b e1) as (new2 & Hc2 & Ha2 & Hp2).
    rewrite Hb in Hc2. cbn [snd] in Hc2.
    exists (new1 ++ new2). rewrite Hc2, Hc1, <- app_assoc.
    split; [reflexivity|]. split; [|apply Forall_app; auto].
    apply Forall_app. split.
    + eapply Forall_impl; [|exact (Hok eq_refl)].
      intros c (g & Hin & Hg). exists g.
      split; [apply in_or_app; now left | exact Hg].
    + eapply Forall_impl; [|exact Ha2].
      intros c (g & [<-|[]] & Hg). exists b.
      split; [apply in_or_app; right; now left | exact Hg].
Qed.

(** What [applyFile] does to the history: it appends at most one record,
    only of a file that was not recorded, so that no name comes to be
    recorded twice; the files available are the same. *)
Lemma applyFile_grows (r : HistoryRunner) (f : str) (e : Env) :
  exists new added,
    calls (snd (applyFile ext r f e)) = calls e ++ new /\
    Forall (@applyingCall Time) new /\
    records (hc (snd (applyFile ext r f e))) = records (hc e) ++ added /\
    migrations (hc (snd (applyFile ext r f e))) = migrations (hc e) /\
    (NoDup (recordedNames (hc e)) ->
     NoDup (recordedNames (hc (snd (applyFile ext r f e))))).
Proof.
  unfold applyFile, bind, getHc.
  destruct (AlreadyApplied (hc e) f) eqn:Haa.
  - exists [], []. cbn. rewrite !app_nil_r. auto.
  - unfold NewFileRunner.
    destruct (newFileRunner ext (resolvePath ext r f) (world e))
      as [[fr|err] w1].
    + unfold FileRunner_Apply. cbn [world hc calls].
      destruct (frApply ext fr w1) as [[err|] w2].
      * exists [CallNewFileRunner Time (resolvePath ext r f);
                CallApply Time (resolvePath ext r f)], [].
        cbn. rewrite <- app_assoc, app_nil_r.
        split; [reflexivity|]. split; [repeat constructor | auto].
      * exists [CallNewFileRunner Time (resolvePath ext r f);
                CallApply Time (resolvePath ext r f)].
        eexists. cbn. rewrite <- app_assoc.
        split; [reflexivity|]. split; [repeat constructor|].
        split; [reflexivity|]. split; [reflexivity|].
        intros Hnd. unfold recordedNames. cbn [records].
        rewrite map_app. apply NoDup_app; [exact Hnd | |].
        -- cbn. constructor; [intros [] | constructor].
        -- intros x Hx [<-|[]]. cbn [recFilename] in Hx.
           apply AlreadyApplied_In in Hx. congruence.
    + exists [CallNewFileRunner Time (resolvePath ext r f)], [].
      cbn. rewrite app_nil_r.
      split; [reflexivity|]. split; [repeat constructor | auto].
Qed.

Lemma applyFiles_grows (r : HistoryRunner) (files : list str) :
  forall e : Env,
  exists new added,
    calls (snd (applyFiles ext r files e)) = calls e ++ new /\
    Forall (@applyingCall Time) new /\
    records (hc (snd (applyFiles ext r files e))) = records (hc e) ++ added /\
    migrations (hc (snd (applyFiles ext r files e))) = migrations (hc e) /\
    (NoDup (recordedNames (hc e)) ->
     NoDup (recordedNames (hc (snd (applyFiles ext r files e))))).
Proof.
  induction files as [|f files IH]; intros e.
  - exists [], []. cbn. rewrite !app_nil_r. auto.
  - cbn [applyFiles]. unfold bind.
    destruct (applyFile_grows r f e) as (new1 & add1 & Hc1 & Ha1 & Hr1 & Hm1 & Hn1).
    destruct (applyFile ext r f e) as [[err|] e1]; cbn [fst snd] in *.
    + exists new1, add1. unfold ret. cbn [fst snd]. auto.
    + destruct (IH e1) as (new2 & add2 & Hc2 & Ha2 & Hr2 & Hm2 & Hn2).
      exists (new1 ++ new2), (add1 ++ add2).
      rewrite Hc2, Hc1, Hr2, Hr1, Hm2, Hm1, <- !app_assoc.
      repeat split; auto. apply Forall_app; auto.
Qed.

Lemma applyBody_grows (r : HistoryRunner) (e : Env) :
  exists new added,
    calls (snd (applyBody ext r e)) = calls e ++ new /\
    Forall (@applyingCall Time) new /\
    records (hc (snd (applyBody ext r e))) = records (hc e) ++ added /\
    migrations (hc (snd (applyBody ext r e))) = migrations (hc e) /\
    (NoDup (recordedNames (hc e)) ->
     NoDup (recordedNames (hc (snd (applyBody ext r e))))).
Proof.
  unfold applyBody. destruct (negb (length (filename r) =? 0)).
  - apply applyFile_grows.
  - unfold applyDir, bind, getHc.
    destruct (length (UnappliedMigrations (hc e)) =? 0).
    + exists [], []. cbn. rewrite !app_nil_r. auto.
    + apply applyFiles_grows.
Qed.

Lemma saveOnExit_keeps (n : nat) (err : error) (e : Env) :
  hc (snd (saveOnExit ext n err e)) = hc e /\
  exists new,
    calls (snd (saveOnExit ext n err e)) = calls e ++ new /\
    Forall (@applyingCall Time) new.
Proof.
  destruct (Nat.eq_dec (HistoryLength (hc e)) n) as [Heq|Hne].
  - rewrite (saveOnExit_unchanged _ _ _ ext n err e Heq). cbn.
    split; [reflexivity|]. exists []. now rewrite app_nil_r.
  - rewrite (saveOnExit_changed _ _ _ ext n err e Hne). cbn.
    split; [reflexivity|]. eexists. split; [reflexivity|].
    repeat constructor.
Qed.

(** X12.  [Plan] only creates file runners and plans: it applies nothing,
    saves nothing and leaves the history as it is.  [Apply] never plans. *)
Theorem Plan_only_plans (r : HistoryRunner) (e : Env) :
  (exists new,
      calls (snd (Plan ext r e)) = calls e ++ new /\
      Forall (@planningCall Time) new) /\
  hc (snd (Plan ext r e)) = hc e /\
  (exists new,
      calls (snd (Apply ext r e)) = calls e ++ new /\
      Forall (@applyingCall Time) new).
Proof.
  split; [|split].
  - unfold Plan. destruct (negb (length (filename r) =? 0)).
    + destruct (planFile_calls r (filename r) e) as (new & Hc & _ & Hp).
      eauto.
    + unfold planDir, bind, getHc.
      destruct (length (UnappliedMigrations (hc e)) =? 0).
      * exists []. cbn. rewrite app_nil_r. auto.
      * destruct (planFiles_calls r (UnappliedMigrations (hc e)) e)
          as (new & Hc & Hp & _).
        eauto.
  - apply Plan_spec.
  - rewrite (Apply_unfold _ _ _ ext r e).
    destruct (applyBody_grows r e) as (new1 & _ & Hc1 & Ha1 & _).
    destruct (saveOnExit_keeps (HistoryLength (hc e))
                (fst (applyBody ext r e)) (snd (applyBody ext r e)))
      as (_ & new2 & Hc2 & Ha2).
    exists (new1 ++ new2). rewrite Hc2, Hc1, <- app_assoc.
    split; [reflexivity | apply Forall_app; auto].
Qed.

(** X13.  [Apply] only appends to the history: the records it had are
    kept, in their order, the files available are the same, and when no
    name was recorded twice before the run none is after it. *)
Theorem Apply_only_appends (r : HistoryRunner) (e : Env) :
  (exists added,
      records (hc (snd (Apply ext r e))) = records (hc e) ++ added) /\
  migrations (hc (snd (Apply ext r e))) = migrations (hc e) /\
  (NoDup (recordedNames (hc e)) ->
   NoDup (recordedNames (hc (snd (Apply ext r e))))).
Proof.
  rewrite (Apply_unfold _ _ _ ext r e).
  destruct (applyBody_grows r e) as (_ & added & _ & _ & Hr & Hm & Hn).
  destruct (saveOnExit_keeps (HistoryLength (hc e))
              (fst (applyBody ext r e)) (snd (applyBody ext r e)))
    as (Hh & _).
  rewrite Hh. split; [eauto|]. split; assumption.
Qed.

(** X14.  In file mode a failure of [applyFile] is what [Apply] returns,
    as it is: nothing was recorded, so the history is not saved and the
    error is not wrapped. *)
Theorem Apply_file_failure (r : HistoryRunner) (e e1 : Env) (err : str) :
  filename r <> [] ->
  applyFile ext r (filename r) e = (Some err, e1) ->
  Apply ext r e = (Some err, e1) /\
  hc e1 = hc e /\
  countSaves (calls e1) = countSaves (calls e).
Proof.
  intros Hf Ha.
  assert (Hmode : negb (length (filename r) =? 0) = true).
  { destruct (filename r); [congruence | reflexivity]. }
  destruct (applyFile_spec _ _ _ ext r (filename r) e)
    as (new & Hc & _ & Hs & Hh).
  rewrite Ha in Hc, Hh. cbn [fst snd] in Hc, Hh.
  split; [|split; [exact Hh|]].
  - rewrite (Apply_unfold _ _ _ ext r e). unfold applyBody.
    rewrite Hmode, Ha. cbn [fst snd].
    apply saveOnExit_unchanged. now rewrite Hh.
  - rewrite Hc, countSaves_app. lia.
Qed.

Lemma filter_none (A : Type) (p : A -> bool) (l : list A) :
  (forall x, In x l -> p x = false) -> filter p l = [].
Proof.
  induction l as [|x l IH]; intros H; [reflexivity|].
  cbn [filter]. rewrite (H x (or_introl eq_refl)).
  apply IH. intros y Hy. apply H. now right.
Qed.

(** The error [Apply] returns is nil only when its body returned nil, and
    the history is then the one the body left. *)
Lemma Apply_nil (r : HistoryRunner) (e e1 : Env) :
  Apply ext r e = (None, e1) ->
  fst (applyBody ext r e) = None /\ hc e1 = hc (snd (applyBody ext r e)).
Proof.
  intros HA. rewrite (Apply_unfold _ _ _ ext r e) in HA.
  destruct (applyBody ext r e) as [err e0]. cbn [fst snd] in *.
  destruct (Nat.eq_dec (HistoryLength (hc e0)) (HistoryLength (hc e)))
    as [Heq|Hne].
  - rewrite (saveOnExit_unchanged _ _ _ ext _ _ _ Heq) in HA.
    inversion HA; subst. auto.
  - rewrite (saveOnExit_changed _ _ _ ext _ _ _ Hne) in HA.
    inversion HA as [[H1 H2]]. split; [|reflexivity].
    destruct (fst (historySave ext (records (hc e0)) (world e0)));
      destruct err; congruence.
Qed.

(** X15.  After an [Apply] in directory mode that returned no error no
    migration is left unapplied, and a second [Apply] does nothing: no
    call, no save, the same history. *)
Theorem Apply_directory_twice (r : HistoryRunner) (e e1 : Env) :
  filename r = [] ->
  Apply ext r e = (None, e1) ->
  UnappliedMigrations (hc e1) = [] /\
  Apply ext r e1 = (None, e1).
Proof.
  intros Hf HA. destruct (Apply_nil r e e1 HA) as [Hb Hh].
  assert (Hu : UnappliedMigrations (hc e1) = []).
  { rewrite Hh. unfold applyBody in *. rewrite Hf in *.
    cbn [length Nat.eqb negb] in *.
    unfold applyDir, bind, getHc in *.
    destruct (length (UnappliedMigrations (hc e)) =? 0) eqn:Hl.
    - cbn [snd ret]. apply Nat.eqb_eq in Hl.
      now apply length_zero_iff_nil in Hl.
    - destruct (applyFiles_spec _ _ _ ext r (UnappliedMigrations (hc e)) e)
        as (new & _ & _ & Hm & Hok).
      destruct (Hok Hb) as [_ Hr].
      unfold UnappliedMigrations at 1. rewrite Hm.
      apply filter_none. intros f Hin. apply negb_false_iff.
      apply AlreadyApplied_In. rewrite Hr. apply in_or_app.
      destruct (AlreadyApplied (hc e) f) eqn:Haa.
      + left. now apply AlreadyApplied_In.
      + right. unfold UnappliedMigrations. apply filter_In.
        split; [exact Hin | now rewrite Haa]. }
  split; [exact Hu|].
  rewrite (Apply_unfold _ _ _ ext r e1). unfold applyBody. rewrite Hf.
  cbn [length Nat.eqb negb]. unfold applyDir, bind, getHc. rewrite Hu.
  cbn [length Nat.eqb]. unfold ret. cbn [fst snd].
  now apply saveOnExit_unchanged.
Qed.

(** X16.  In directory mode, when every unapplied file is applied, the
    history holds their records after the old ones, in the order of the
    files, and is saved once, with these records; [Apply] returns no error
    when the save succeeds. *)
Theorem Apply_directory_success (r : HistoryRunner) (e e1 : Env)
    (files : list str) (w : World) :
  filename r = [] ->
  files <> [] ->
  UnappliedMigrations (hc e) = files ->
  applyFiles ext r files e = (None, e1) ->
  historySave ext (records (hc e1)) (world e1) = (None, w) ->
  Apply ext r e =
    (None, mkEnv (hc e1) w (calls e1 ++ [CallSave (records (hc e1))])) /\
  recordedNames (hc e1) = recordedNames (hc e) ++ files /\
  countSaves (calls e1) = countSaves (calls e).
Proof.
  intros Hf Hne Hu Ha Hsave.
  destruct (applyFiles_spec _ _ _ ext r files e) as (new & Hc & Hs & _ & Hok).
  rewrite Ha in Hc, Hok. cbn [fst snd] in Hc, Hok.
  destruct (Hok eq_refl) as [_ Hr].
  assert (Hlen : HistoryLength (hc e1) <> HistoryLength (hc e)).
  { unfold HistoryLength.
    rewrite <- (length_map (@recFilename Time) (records (hc e1))), Hr.
    rewrite length_app, length_map. destruct files; [congruence | cbn; lia]. }
  split; [|split; [exact Hr|]].
  - rewrite (Apply_unfold _ _ _ ext r e). unfold applyBody. rewrite Hf.
    cbn [length Nat.eqb negb]. unfold applyDir, bind, getHc. rewrite Hu.
    replace (length files =? 0) with false
      by (symmetry; apply Nat.eqb_neq; destruct files; [congruence | cbn; lia]).
    rewrite Ha. cbn [fst snd].
    rewrite (saveOnExit_changed _ _ _ ext _ _ _ Hlen), Hsave. reflexivity.
  - rewrite Hc, countSaves_app. lia.
Qed.

End HistoryRunnerFurther.

Lemma planDir_stops_at_first_failure_witness :
  let ext := demoFiles [s "migrations/b.hcl"] false in
  let r := demoRunner [] in
  let e := demoEnv [s "a.hcl"; s "b.hcl"; s "c.hcl"] [] in
  command.UnappliedMigrations (command.hc e) =
    [s "a.hcl"] ++ s "b.hcl" :: [s "c.hcl"] /\
  fst (command.planDir ext r e) = Some (s "cannot plan migrations/b.hcl") /\
  command.calls (snd (command.planDir ext r e)) =
    [command.CallNewFileRunner unit (s "migrations/a.hcl");
     command.CallPlan unit (s "migrations/a.hcl");
     command.CallNewFileRunner unit (s "migrations/b.hcl");
     command.CallPlan unit (s "migrations/b.hcl")].
Proof.
  intros ext r e.
  assert (Hu : command.UnappliedMigrations (command.hc e) =
               [s "a.hcl"] ++ s "b.hcl" :: [s "c.hcl"])
    by (vm_compute; reflexivity).
  assert (H1 : command.planFiles ext r [s "a.hcl"] e =
               (None, snd (command.planFiles ext r [s "a.hcl"] e)))
    by (vm_compute; reflexivity).
  assert (H2 : command.planFile ext r (s "b.hcl")
                 (snd (command.planFiles ext r [s "a.hcl"] e)) =
               (Some (s "cannot plan migrations/b.hcl"),
                snd (command.planFile ext r (s "b.hcl")
                       (snd (command.planFiles ext r [s "a.hcl"] e)))))
    by (vm_compute; reflexivity).
  destruct (planDir_stops_at_first_failure _ _ _ ext r e _ _ _ _ _ _
              Hu H1 H2) as (HD & _).
  split; [exact Hu|]. rewrite HD. cbn [fst snd].
  split; [reflexivity | vm_compute; reflexivity].
Defined.

Lemma Apply_only_appends_witness :
  let ext := demoFiles [s "migrations/c.hcl"] false in
  let r := demoRunner [] in
  let e := demoEnv [s "a.hcl"; s "b.hcl"; s "c.hcl"] [s "a.hcl"] in
  NoDup (recordedNames (command.hc e)) /\
  recordedNames (command.hc (snd (command.Apply ext r e))) =
    [s "a.hcl"; s "b.hcl"] /\
  NoDup (recordedNames (command.hc (snd (command.Apply ext r e)))).
Proof.
  intros ext r e.
  assert (Hn : NoDup (recordedNames (command.hc e))).
  { cbn. constructor; [intros [] | constructor]. }
  split; [exact Hn|]. split; [vm_compute; reflexivity|].
  destruct (Apply_only_appends _ _ _ ext r e) as (_ & _ & H).
  exact (H Hn).
Defined.

Lemma Apply_file_failure_witness :
  let ext := demoFiles [s "migrations/b.hcl"] true in
  let r := demoRunner (s "b.hcl") in
  let e := demoEnv [s "a.hcl"; s "b.hcl"] [s "a.hcl"] in
  command.filename r <> [] /\
  command.Apply ext r e =
    (Some (s "cannot apply migrations/b.hcl"),
     command.mkEnv (command.hc e) []
       [command.CallNewFileRunner unit (s "migrations/b.hcl");
        command.CallApply unit (s "migrations/b.hcl")]).
Proof.
  intros ext r e.
  assert (Hf : command.filename r <> []) by discriminate.
  split; [exact Hf|].
  apply (Apply_file_failure _ _ _ ext r e _ _ Hf).
  vm_compute. reflexivity.
Defined.

Lemma Apply_directory_twice_witness :
  let ext := demoFiles [] false in
  let r := demoRunner [] in
  let e := demoEnv [s "a.hcl"; s "b.hcl"] [] in
  let e1 := snd (command.Apply ext r e) in
  command.filename r = [] /\
  command.Apply ext r e = (None, e1) /\
  recordedNames (command.hc e1) = [s "a.hcl"; s "b.hcl"] /\
  command.Apply ext r e1 = (None, e1).
Proof.
  intros ext r e e1.
  assert (Hf : command.filename r = []) by reflexivity.
  assert (HA : command.Apply ext r e = (None, e1))
    by (vm_compute; reflexivity).
  split; [exact Hf|]. split; [exact HA|].
  split; [vm_compute; reflexivity|].
  destruct (Apply_directory_twice _ _ _ ext r e e1 Hf HA) as [_ H].
  exact H.
Defined.

Lemma Apply_directory_success_witness :
  let ext := demoFiles [] false in
  let r := demoRunner [] in
  let e := demoEnv [s "a.hcl"; s "b.hcl"; s "c.hcl"] [s "b.hcl"] in
  command.UnappliedMigrations (command.hc e) = [s "a.hcl"; s "c.hcl"] /\
  fst (command.Apply ext r e) = None /\
  recordedNames (command.hc (snd (command.Apply ext r e))) =
    [s "b.hcl"; s "a.hcl"; s "c.hcl"] /\
  command.countSaves (command.calls (snd (command.Apply ext r e))) = 1.
Proof.
  intros ext r e.
  assert (Hf : command.filename r = []) by reflexivity.
  assert (Hne : [s "a.hcl"; s "c.hcl"] <> []) by discriminate.
  assert (Hu : command.UnappliedMigrations (command.hc e) =
               [s "a.hcl"; s "c.hcl"]) by (vm_compute; reflexivity).
  assert (Ha : command.applyFiles ext r [s "a.hcl"; s "c.hcl"] e =
               (None,
                snd (command.applyFiles ext r [s "a.hcl"; s "c.hcl"] e)))
    by (vm_compute; reflexivity).
  assert (Hs : command.historySave ext
                 (command.records
                    (command.hc
                       (snd (command.applyFiles ext r
                               [s "a.hcl"; s "c.hcl"] e))))
                 (command.world
                    (snd (command.applyFiles ext r
                            [s "a.hcl"; s "c.hcl"] e))) =
               (None, [s "migrations/a.hcl"; s "migrations/c.hcl"]))
    by (vm_compute; reflexivity).
  destruct (Apply_directory_success _ _ _ ext r e _ _ _ Hf Hne Hu Ha Hs)
    as (HA & _ & _).
  split; [exact Hu|]. rewrite HA. cbn [fst snd command.hc command.calls].
  split; [reflexivity|]. split; vm_compute; reflexivity.
Defined.

Lemma second_Apply_is_refused_witness :
  let ext := demoFiles [] false in
  let r := demoRunner (s "a.hcl") in
  let e := demoEnv [s "a.hcl"] [] in
  let e1 := snd (command.Apply ext r e) in
  command.filename r <> [] /\
  command.Apply ext r e = (None, e1) /\
  command.Apply ext r e1 =
    (Some (s "a migration has already been applied: a.hcl"), e1).
Proof.
  intros ext r e e1.
  assert (Hf : command.filename r <> []) by discriminate.
  assert (HA : command.Apply ext r e = (None, e1))
    by (vm_compute; reflexivity).
  split; [exact Hf|]. split; [exact HA|].
  exact (second_Apply_is_refused _ _ _ ext r e e1 Hf HA).
Defined.

Lemma wildcard_captures_no_bracket_no_space_witness :
  let a := NewStateXMvAction (s "module.*[*].r") (s "x") in
  let stateList := [s "module.a[0].r"; s "module.b[17].r"] in
  let m := regexp.mkLoc 14 28 [s "b"; s "17"] in
  In m (regexp.allMatches (pattern (source a))
          (strings.Join stateList [LF])) /\
  In (s "17") (regexp.groups m) /\ In "7"%char (s "17") /\
  ~ In "7"%char regexp.wildcardExcluded.
Proof.
  intros a stateList m.
  assert (H1 : In m (regexp.allMatches (pattern (source a))
                       (strings.Join stateList [LF])))
    by (vm_compute; right; left; reflexivity).
  assert (H2 : In (s "17") (regexp.groups m)) by (right; left; reflexivity).
  assert (H3 : In "7"%char (s "17")) by (right; left; reflexivity).
  repeat (split; [assumption|]).
  exact (wildcard_captures_no_bracket_no_space a stateList m (s "17") "7"
           H1 H2 H3).
Defined.

(** * The moves of a wildcard source *)

(** X3.  Every move generated from an ASCII wildcard source and an ASCII
    destination has as its source the source of the action with each
    wildcard replaced by a text, one text for each wildcard, none of which
    holds a bracket or a white space character, and as its destination the
    template expanded with the source of the move and these texts as
    groups. *)
Theorem move_is_the_filled_source (a : StateXMvAction)
    (stateList : list str) (moves : list StateMvAction)
    (move : StateMvAction) :
  isASCII (source a) = true ->
  isASCII (destination a) = true ->
  In "*"%char (source a) ->
  getStateMvActionsForStateList regexp.go a stateList = (Some moves, None) ->
  In move moves ->
  exists caps,
    length caps = nrOfWildcards a /\
    mvSource move = fill (source a) caps /\
    Forall (Forall (fun c => ~ In c regexp.wildcardExcluded)) caps /\
    mvDestination move =
      regexp.expand (S (length (destination a))) (destination a)
        (mvSource move :: caps).
Proof.
  intros Hascii _ Hw He Hin.
  rewrite (expansion_of_wildcards a stateList Hascii Hw) in He.
  inversion He; subst moves. apply in_map_iff in Hin.
  destruct Hin as (m & <- & Hm). exists (regexp.groups m).
  pose proof (In_allMatches _ _ _ Hm) as (_ & _ & Hmatch).
  destruct (matchHere_fill _ _ _ _ Hmatch) as [Hf Hl].
  split; [|split; [exact Hf | split; [|reflexivity]]].
  - rewrite Hl. unfold nrOfWildcards. symmetry. apply countFrom_wildcard.
  - apply matchHere_captures in Hmatch.
    eapply Forall_impl; [|exact Hmatch]. intros cap Hcap.
    eapply Forall_impl; [|exact Hcap]. intros c Hc Hex.
    unfold regexp.wildcardClass in Hc. apply negb_true_iff in Hc.
    assert (Ht : existsb (Ascii.eqb c) regexp.wildcardExcluded = true).
    { apply existsb_exists. exists c. split; [exact Hex|].
      apply Ascii.eqb_refl. }
    congruence.
Qed.

Lemma move_is_the_filled_source_witness :
  let a := NewStateXMvAction (s "module.*[*].r") (s "module.${1}_${2}") in
  let stateList := [s "module.a[0].r"; s "module.b[17].r"] in
  isASCII (source a) = true /\ isASCII (destination a) = true /\
  In "*"%char (source a) /\
  getStateMvActionsForStateList regexp.go a stateList =
    (Some [mkStateMvAction (s "module.a[0].r") (s "module.a_0");
           mkStateMvAction (s "module.b[17].r") (s "module.b_17")], None) /\
  exists caps,
    length caps = nrOfWildcards a /\
    s "module.b[17].r" = fill (source a) caps.
Proof.
  intros a stateList.
  assert (H1 : isASCII (source a) = true) by reflexivity.
  assert (H0 : isASCII (destination a) = true) by reflexivity.
  assert (H2 : In "*"%char (source a)) by (cbn; tauto).
  assert (H3 : getStateMvActionsForStateList regexp.go a stateList =
               (Some [mkStateMvAction (s "module.a[0].r") (s "module.a_0");
                      mkStateMvAction (s "module.b[17].r") (s "module.b_17")],
                None)) by (vm_compute; reflexivity).
  repeat (split; [assumption|]).
  destruct (move_is_the_filled_source a stateList _
              (mkStateMvAction (s "module.b[17].r") (s "module.b_17"))
              H1 H0 H2 H3) as (caps & Hl & Hf & _).
  - right. left. reflexivity.
  - exists caps. split; [exact Hl | exact Hf].
Defined.
